(** * pkgsyms: a shallow embedding of the symbol registry and of the
    declaration scanner of the pkgsyms generator.

    The registry lives in [symbol.go] and [error.go]; the scanner is the
    [generator] of the command ([main] package).  Go strings are modelled
    as [String.string] (byte strings), Go maps as stdpp's [gmap], slices as
    lists, pointers as locations into an explicit heap. *)

From Stdlib Require Import String Ascii ZArith List Sorting.Permutation
  Sorting.Sorted.
From stdpp Require Import base gmap strings list.

Import ListNotations.
Set Warnings "-register-all".

(* ================================================================== *)
(** ** Errors ([error.go]) *)

(** [type NotFound struct { Pkg string; Sym string }] *)
Record NotFound := { Pkg : string; Sym : string }.

(** The two results of a Go function returning [(T, error)] where the only
    error is a [NotFound] value. *)
Inductive result (A : Type) :=
| Ok (a : A)
| Err (e : NotFound).
Arguments Ok {A} a.
Arguments Err {A} e.

Section NotFoundError.
(** [fmt.Sprintf("%q", s)], i.e. [strconv.Quote]: kept abstract, the
    shape of the message does not depend on how a name is quoted. *)
Variable Quote : string -> string.

(** [func (nf NotFound) Error() string] *)
Definition NotFound_Error (nf : NotFound) : string :=
  let pkg := if (0 <? String.length (Pkg nf))%nat
             then ("package " ++ Quote (Pkg nf) ++ ": ")%string
             else Pkg nf in
  let sym := if (0 <? String.length (Sym nf))%nat
             then ("symbol " ++ Quote (Sym nf) ++ ": ")%string
             else Sym nf in
  (pkg ++ sym ++ "not found")%string.
End NotFoundError.

(** [strconv.Quote] on names made of letters and digits: the name between
    double quotes. *)
Definition dquote : string := String (ascii_of_nat 34) EmptyString.
Definition quote_name (s : string) : string := (dquote ++ s ++ dquote)%string.

(* ================================================================== *)
(** ** The [Symbols] collection ([symbol.go]) *)

Module Registry.
Section Symbols.
(** The [Symbol] interface, seen through its [Name] method. *)
Context {Symbol : Type} (Name : Symbol -> string).

(** [type Symbols struct { mutex; names map[string]int; slice []Symbol }];
    [names = None] is the nil map of a zero [Symbols] value. *)
Record Symbols := { names : option (gmap string nat); slice : list Symbol }.

(** The zero value [Symbols{}] (for instance the one embedded in a fresh
    [Package]). *)
Definition zero_Symbols : Symbols := {| names := None; slice := [] |}.

(** [func MakeSymbols(capacity int) Symbols]: with a negative capacity the
    slice stays nil, otherwise it is empty with that capacity; both are
    the empty list. *)
Definition MakeSymbols (capacity : Z) : Symbols :=
  if (capacity <? 0)%Z then {| names := Some ∅; slice := [] |}
  else {| names := Some ∅; slice := [] |}.

(** [func (syms *Symbols) Lookup(name string) (Symbol, error)];
    [None] is the index-out-of-range panic of [syms.slice[i]]. *)
Definition Lookup (syms : Symbols) (name : string) : option (result Symbol) :=
  match names syms with
  | None => Some (Err {| Pkg := ""; Sym := name |})
  | Some m =>
      match m !! name with
      | None => Some (Err {| Pkg := ""; Sym := name |})
      | Some i =>
          match slice syms !! i with
          | Some s => Some (Ok s)
          | None => None
          end
      end
  end.

(** One iteration of the loop of [Add]. *)
Definition add_one (st : gmap string nat * list Symbol) (s : Symbol)
  : gmap string nat * list Symbol :=
  let '(m, sl) := st in
  let name := Name s in
  match m !! name with
  | Some _ => (m, sl)
  | None => (<[name := length sl]> m, sl ++ [s])
  end.

(** [func (syms *Symbols) Add(ss ...Symbol)] *)
Definition Add (syms : Symbols) (ss : list Symbol) : Symbols :=
  let st0 := match names syms with
             | None => (∅, [])
             | Some m => (m, slice syms)
             end in
  let '(m, sl) := fold_left add_one ss st0 in
  {| names := Some m; slice := sl |}.

(** The invariant of the data model: [names[n] == i] iff
    [slice[i].Name() == n], and names in [slice] are pairwise distinct.
    Reading a nil map finds no key. *)
Definition tables_inv (m : gmap string nat) (sl : list Symbol) : Prop :=
  (forall n i, m !! n = Some i <-> exists s, sl !! i = Some s /\ Name s = n)
  /\ NoDup (map Name sl).

Definition Symbols_inv (syms : Symbols) : Prop :=
  tables_inv (default ∅ (names syms)) (slice syms).

(** Collections reachable through the public operations: [MakeSymbols]
    or the zero value, then any number of [Add] calls ([Lookup] leaves the
    collection as it is). *)
Inductive reachable : Symbols -> Prop :=
| reach_make c : reachable (MakeSymbols c)
| reach_zero : reachable zero_Symbols
| reach_add syms ss : reachable syms -> reachable (Add syms ss).
End Symbols.
End Registry.

(* ================================================================== *)
(** ** The package index ([pkgs sync.Map], [Of], [Lookup]) *)

Module Index.
Section Index.
Context {Symbol : Type} (Name : Symbol -> string).

(** A [*Package] is a location in the heap of packages. *)
Definition loc := nat.

(** [type Package struct { Name string; Symbols }] *)
Record Package := { pkg_Name : string; pkg_Symbols : Registry.Symbols (Symbol:=Symbol) }.

(** The process state: the [pkgs] map and the packages it points to. *)
Record World := { pkgs : gmap string loc; heap : list Package }.

(** [pkgs.Load(name)] *)
Definition Load (name : string) (w : World) : option loc := pkgs w !! name.

(** [pkgs.LoadOrStore(name, v)]: the actual value and whether it was
    loaded. *)
Definition LoadOrStore (name : string) (v : loc) (w : World) : loc * bool * World :=
  match pkgs w !! name with
  | Some v' => (v', true, w)
  | None => (v, false, {| pkgs := <[name := v]> (pkgs w); heap := heap w |})
  end.

(** [pkg := &Package{Name: name}]: a fresh location holding a package with
    the zero [Symbols]. *)
Definition alloc_Package (name : string) (w : World) : loc * World :=
  (length (heap w),
   {| pkgs := pkgs w;
      heap := heap w ++ [{| pkg_Name := name; pkg_Symbols := Registry.zero_Symbols |}] |}).

(** [func Of(name string) *Package] *)
Definition Of (name : string) (w : World) : loc * World :=
  match Load name w with
  | Some v => (v, w)
  | None =>
      let '(pkg, w1) := alloc_Package name w in
      let '(v, loaded, w2) := LoadOrStore name pkg w1 in
      if loaded then (v, w2) else (pkg, w2)
  end.

(** [func Lookup(name string) (pointer to Package, error)]: reads the index only. *)
Definition Lookup (name : string) (w : World) : result loc :=
  match Load name w with
  | None => Err {| Pkg := name; Sym := "" |}
  | Some v => Ok v
  end.

(** [p.Add(ss...)] on the package at location [p]. *)
Definition AddTo (p : loc) (ss : list Symbol) (w : World) : World :=
  match heap w !! p with
  | Some pkg =>
      {| pkgs := pkgs w;
         heap := <[p := {| pkg_Name := pkg_Name pkg;
                           pkg_Symbols := Registry.Add Name (pkg_Symbols pkg) ss |}]> (heap w) |}
  | None => w
  end.

(** Registry operations a program may perform, in sequence. *)
Inductive op :=
| OpOf (name : string)
| OpLookup (name : string)
| OpAdd (p : loc) (ss : list Symbol).

Definition step (o : op) (w : World) : World :=
  match o with
  | OpOf name => snd (Of name w)
  | OpLookup _ => w
  | OpAdd p ss => AddTo p ss w
  end.

Definition run (os : list op) (w : World) : World := fold_left (fun w o => step o w) os w.

(** The index at program start: the zero [sync.Map]. *)
Definition empty_World : World := {| pkgs := ∅; heap := [] |}.
End Index.
End Index.

(* ================================================================== *)
(** ** Values, variables and the symbol implementations ([symbol.go]) *)

Module Values.
(** Static Go types of package variables, as far as assignment cares. *)
Inductive gotype := TInt | TString | TIface.

(** Dynamic values held in an [interface{}]. *)
Inductive value :=
| VNil
| VInt (z : Z)
| VString (s : string)
| VPtr (l : nat)
| VFunc (f : string)
| VRType (t : string).

(** A package variable: its static type and current value. *)
Record cell := { ctype : gotype; cval : value }.

(** The storage of package variables, addressed by location. *)
Definition store := gmap nat cell.

(** [reflect.Value.Set] accepts [x] iff [x] is a valid (non-nil) value
    assignable to the variable's type. *)
Definition assignable (v : value) (t : gotype) : bool :=
  match v, t with
  | VNil, _ => false
  | _, TIface => true
  | VInt _, TInt => true
  | VString _, TString => true
  | _, _ => false
  end.
End Values.
Import Values.

Module Const.
(** [type Const struct { name string; value interface{} }] *)
Record t := { name : string; value : Values.value }.
Definition MakeConst (name : string) (value : Values.value) : t := {| name := name; value := value |}.
Definition Name (c : t) : string := name c.
Definition Get (c : t) : Values.value := value c.
End Const.

Module Func.
(** [type Func struct { name string; fval interface{} }] *)
Record t := { name : string; fval : value }.
Definition MakeFunc (name : string) (fval : value) : t := {| name := name; fval := fval |}.
Definition Name (f : t) : string := name f.
Definition Get (f : t) : value := fval f.
End Func.

Module GoType.
(** [type Type struct { name string; rtyp reflect.Type }]; a
    [reflect.Type] is represented by the name of the type it describes. *)
Record t := { name : string; rtyp : string }.
(** [MakeType(name, pval)] with [pval] a nil pointer to [T]:
    [reflect.TypeOf(pval).Elem()] is [T]. *)
Definition MakeType (name : string) (elem : string) : t := {| name := name; rtyp := elem |}.
Definition Name (ty : t) : string := name ty.
Definition Get (ty : t) : value := VRType (rtyp ty).
End GoType.

Module Var.
(** [type Var struct { name string; addr interface{} }] *)
Record t := { name : string; addr : value }.

(** [func (v Var) Get() interface{}]: [reflect.ValueOf(v.addr).Elem()
    .Interface()]; [None] is a reflect panic. *)
Definition Get (v : t) (h : store) : option value :=
  match addr v with
  | VPtr l => option_map cval (h !! l)
  | _ => None
  end.

(** [func (v Var) Set(val interface{})] ([Set] is a Rocq keyword):
    [reflect.ValueOf(v.addr).Elem().Set(reflect.ValueOf(val))]. *)
Definition Set_ (v : t) (val : value) (h : store) : option store :=
  match addr v with
  | VPtr l =>
      match h !! l with
      | Some c => if assignable val (ctype c)
                  then Some (<[l := {| ctype := ctype c; cval := val |}]> h)
                  else None
      | None => None
      end
  | _ => None
  end.
End Var.

(** Interface values of type [Symbol] built from the package's
    implementations. *)
Inductive symbol :=
| SConst (c : Const.t)
| SFunc (f : Func.t)
| SType (ty : GoType.t).

Definition symbol_Name (s : symbol) : string :=
  match s with
  | SConst c => Const.Name c
  | SFunc f => Func.Name f
  | SType ty => GoType.Name ty
  end.

Definition symbol_Get (s : symbol) : value :=
  match s with
  | SConst c => Const.Get c
  | SFunc f => Func.Get f
  | SType ty => GoType.Get ty
  end.

(** Method sets of the four symbol types as declared in [symbol.go]
    (method name and signature), and of the [Symbol] interface. *)
Module MethodSets.
Definition method := (string * string)%type.

Definition Symbol_iface : list method :=
  [("Name", "func() string"); ("Get", "func() interface{}")].

Definition Const_methods : list method :=
  [("Name", "func() string"); ("Get", "func() interface{}")].
Definition Func_methods : list method :=
  [("Name", "func() string"); ("Get", "func() interface{}")].
Definition Type_methods : list method :=
  [("Name", "func() string"); ("Get", "func() interface{}");
   ("Type", "func() reflect.Type")].
Definition Var_methods : list method :=
  [("Get", "func() interface{}"); ("Set", "func(val interface{})")].

Definition method_eqb (a b : method) : bool :=
  String.eqb (fst a) (fst b) && String.eqb (snd a) (snd b).

(** A type implements an interface iff its method set contains every
    method of the interface. *)
Definition implements (ms iface : list method) : bool :=
  forallb (fun m => existsb (method_eqb m) ms) iface.
End MethodSets.

(* ================================================================== *)
(** ** The declaration scanner (the [generator] of the command) *)

Module Scanner.

(** *** The syntax it walks: the part of [go/ast] that matters here.
    Nodes on which [inspect] can only answer [true] and that hold no
    declaration (identifier names, field lists, comments, positions) are
    not represented; names are kept as strings. *)

Inductive token := IMPORT | CONST | TYPE | VAR.

Inductive Expr :=
| Ident (name : string)
| BasicLit (value : string)
| StarExpr (x : Expr)
| SelectorExpr (x : Expr) (sel : string)
| CallExpr (fn : Expr) (args : list Expr)
| FuncLit (type_ : Expr) (body : Stmt)  (* a [BlockStmt] *)
| FuncType (params results : list Field)
| InterfaceType (methods : list Field)
| StructType (fields : list Field)
with Field :=
| MkField (names : list string) (type_ : Expr)
with Stmt :=
(** [&ast.DeclStmt{Decl: &ast.GenDecl{Tok: tok, Specs: specs}}] *)
| DeclStmt (tok : token) (specs : list Spec)
| ExprStmt (x : Expr)
| AssignStmt (lhs rhs : list Expr)
| ReturnStmt (results : list Expr)
| BlockStmt (list : list Stmt)
with Spec :=
| ImportSpec (path : string)
| TypeSpec (name : string) (type_ : Expr)
| ValueSpec (names : list string) (type_ : option Expr) (values : list Expr).

(** Top-level declarations; a [FuncDecl] occurs only at package scope. *)
Inductive Decl :=
| GenDecl (tok : token) (specs : list Spec)
| FuncDecl (recv : option Field) (name : string) (type_ : Expr) (body : option Stmt).

(** [*ast.File] *)
Record File := { file_name : string; decls : list Decl }.

(** The [ast.Node] handed to the callback. *)
Inductive Node :=
| NFile (f : File)
| NDecl (d : Decl)
| NSpec (s : Spec)
| NStmt (s : Stmt)
| NExpr (e : Expr)
| NField (f : Field).

(** [ast.IsExported]: [unicode.IsUpper] of the first rune.  Identifiers
    are modelled over ASCII, where that is [A]..[Z]; a name with a
    non-ASCII upper-case initial (such as [Äpfel]) is outside the model. *)
Definition IsExported (name : string) : bool :=
  match name with
  | String c _ => let n := nat_of_ascii c in (65 <=? n)%nat && (n <=? 90)%nat
  | EmptyString => false
  end.

(** *** The descriptors *)

(** [type declKind int] with [badDecl = iota, constDecl, typeDecl,
    funcDecl, varDecl]. *)
Inductive declKind := badDecl | constDecl | typeDecl | funcDecl | varDecl.

Definition declKind_int (k : declKind) : Z :=
  match k with
  | badDecl => 0 | constDecl => 1 | typeDecl => 2 | funcDecl => 3 | varDecl => 4
  end.

(** [type decl struct { g *generator; kind declKind; Name string; Type string }];
    the back pointer [g] only supplies the prefix when rendering. *)
Record decl := { kind : declKind; Name : string; Type_ : string }.

Section Generator.
(** [printer.Fprint(&sb, g.pkg.Fset, tp)]: [None] is a printer error,
    on which the scanner calls [log.Fatal]. *)
Variable Fprint : Expr -> option string.

(** The body of the [CONST]/[VAR] case for one [ValueSpec]: the loop
    [for i, id := range vs.Names]; [None] is [log.Fatal] or the index
    panic of [vs.Values[i]]. *)
Fixpoint value_names (k : declKind) (names : list string) (i : nat)
  (ty : option Expr) (values : list Expr) : option (list decl) :=
  match names with
  | [] => Some []
  | id :: rest =>
      let this :=
        if IsExported id then
          let tp := match ty with Some t => Some t | None => values !! i end in
          match tp with
          | None => None
          | Some tp =>
              match Fprint tp with
              | None => None
              | Some s => Some [{| kind := k; Name := id; Type_ := s |}]
              end
          end
        else Some [] in
      match this, value_names k rest (S i) ty values with
      | Some d, Some ds => Some (d ++ ds)
      | _, _ => None
      end
  end.

(** [for _, s := range n.Specs] in the [CONST]/[VAR] case;
    the type assertion to a value spec panics on another spec. *)
Fixpoint value_specs (k : declKind) (specs : list Spec) : option (list decl) :=
  match specs with
  | [] => Some []
  | ValueSpec names ty values :: rest =>
      match value_names k names 0 ty values, value_specs k rest with
      | Some d, Some ds => Some (d ++ ds)
      | _, _ => None
      end
  | _ :: _ => None
  end.

(** [for _, s := range n.Specs] in the [TYPE] case. *)
Fixpoint type_specs (specs : list Spec) : option (list decl) :=
  match specs with
  | [] => Some []
  | TypeSpec name _ :: rest =>
      match type_specs rest with
      | Some ds =>
          Some ((if IsExported name
                 then [{| kind := typeDecl; Name := name; Type_ := "" |}]
                 else []) ++ ds)
      | None => None
      end
  | _ :: _ => None
  end.

(** [func (g *generator) inspect(n ast.Node) bool]: the descriptors it
    appends to [g.decls] and its answer (descend into the children or
    not); [None] is a fatal error. *)
Definition inspect (n : Node) : option (list decl * bool) :=
  match n with
  | NDecl (GenDecl TYPE specs) =>
      match type_specs specs with Some ds => Some (ds, false) | None => None end
  | NDecl (GenDecl CONST specs) =>
      match value_specs constDecl specs with Some ds => Some (ds, false) | None => None end
  | NDecl (GenDecl VAR specs) =>
      match value_specs varDecl specs with Some ds => Some (ds, false) | None => None end
  | NDecl (FuncDecl recv name _ _) =>
      match recv with
      | Some _ => Some ([], true)
      | None =>
          if IsExported name
          then Some ([{| kind := funcDecl; Name := name; Type_ := "" |}], false)
          else Some ([], true)
      end
  | _ => Some ([], true)
  end.

(** Visiting the children of a list, in order ([walkList]). *)
Fixpoint walk_list {A : Type} (walk : A -> list decl -> option (list decl))
  (l : list A) (acc : list decl) : option (list decl) :=
  match l with
  | [] => Some acc
  | x :: l' =>
      match walk x acc with
      | Some acc' => walk_list walk l' acc'
      | None => None
      end
  end.

(** [visit n acc children]: call the callback on [n], append what it
    found to [acc], and walk the children if it answered [true]. *)
Definition visit (n : Node) (acc : list decl)
  (children : list decl -> option (list decl)) : option (list decl) :=
  match inspect n with
  | None => None
  | Some (ds, false) => Some (acc ++ ds)
  | Some (ds, true) => children (acc ++ ds)
  end.

(** [ast.Inspect(f, g.inspect)]: a pre-order walk that follows the
    children order of [ast.Walk]; the closing [inspect(nil)] call of
    [ast.Inspect] finds nothing and is left out. *)
Fixpoint walk_expr (e : Expr) (acc : list decl) {struct e} : option (list decl) :=
  visit (NExpr e) acc (fun acc =>
    match e with
    | Ident _ | BasicLit _ => Some acc
    | StarExpr x => walk_expr x acc
    | SelectorExpr x _ => walk_expr x acc
    | CallExpr fn args =>
        match walk_expr fn acc with
        | Some acc => walk_list walk_expr args acc
        | None => None
        end
    | FuncLit ty body =>
        match walk_expr ty acc with
        | Some acc => walk_stmt body acc
        | None => None
        end
    | FuncType params results =>
        match walk_list walk_field params acc with
        | Some acc => walk_list walk_field results acc
        | None => None
        end
    | InterfaceType methods => walk_list walk_field methods acc
    | StructType fields => walk_list walk_field fields acc
    end)
with walk_field (f : Field) (acc : list decl) {struct f} : option (list decl) :=
  visit (NField f) acc (fun acc =>
    match f with
    | MkField _ ty => walk_expr ty acc
    end)
with walk_stmt (s : Stmt) (acc : list decl) {struct s} : option (list decl) :=
  visit (NStmt s) acc (fun acc =>
    match s with
    | DeclStmt tok specs =>
        visit (NDecl (GenDecl tok specs)) acc (walk_list walk_spec specs)
    | ExprStmt x => walk_expr x acc
    | AssignStmt lhs rhs =>
        match walk_list walk_expr lhs acc with
        | Some acc => walk_list walk_expr rhs acc
        | None => None
        end
    | ReturnStmt results => walk_list walk_expr results acc
    | BlockStmt l => walk_list walk_stmt l acc
    end)
with walk_spec (s : Spec) (acc : list decl) {struct s} : option (list decl) :=
  visit (NSpec s) acc (fun acc =>
    match s with
    | ImportSpec _ => Some acc
    | TypeSpec _ ty => walk_expr ty acc
    | ValueSpec _ ty values =>
        match match ty with Some t => walk_expr t acc | None => Some acc end with
        | Some acc => walk_list walk_expr values acc
        | None => None
        end
    end).

(** Walking a top-level declaration: [Recv], [Type], then [Body]. *)
Definition walk_decl (d : Decl) (acc : list decl) : option (list decl) :=
  visit (NDecl d) acc (fun acc =>
    match d with
    | GenDecl _ specs => walk_list walk_spec specs acc
    | FuncDecl recv _ ty body =>
        match match recv with Some r => walk_field r acc | None => Some acc end with
        | Some acc =>
            match walk_expr ty acc with
            | Some acc =>
                match body with
                | Some b => walk_stmt b acc
                | None => Some acc
                end
            | None => None
            end
        | None => None
        end
    end).

Definition walk_file (f : File) (acc : list decl) : option (list decl) :=
  visit (NFile f) acc (walk_list walk_decl (decls f)).

(** [func (g *generator) generate(...)]: [for _, f := range g.pkg.Syntax
    { ast.Inspect(f, g.inspect) }], starting from an empty [g.decls]. *)
Definition generate (syntax : list File) : option (list decl) :=
  walk_list walk_file syntax [].
End Generator.

(** *** Ordering ([main], after [g.generate]) *)

(** The [less] function given to [sort.Slice]:
    [c := a.kind - b.kind; if c != 0 { return c < 0 };
     return strings.Compare(a.Name, b.Name) < 0]. *)
Definition less (a b : decl) : bool :=
  let c := (declKind_int (kind a) - declKind_int (kind b))%Z in
  if negb (c =? 0)%Z then (c <? 0)%Z
  else match String.compare (Name a) (Name b) with Lt => true | _ => false end.

(** [sort.Slice(x, less)] by its documentation: the result is a
    permutation of [x] in which no element is [less] than the one before
    it.  The algorithm behind it is not modelled. *)
Definition sort_Slice (x y : list decl) : Prop :=
  Permutation x y /\ Sorted (fun a b => less b a = false) y.

(** The sort key of a descriptor. *)
Definition key (d : decl) : Z * string := (declKind_int (kind d), Name d).

(** Ascending by kind ([constDecl < typeDecl < funcDecl < varDecl]), then
    by name in byte order: the order the generated list is meant to have. *)
Definition kind_then_name (a b : decl) : Prop :=
  (declKind_int (kind a) < declKind_int (kind b))%Z \/
  (declKind_int (kind a) = declKind_int (kind b) /\ String.leb (Name a) (Name b) = true).

(** One run of the command up to the sort: scan, then [sort.Slice]. *)
Definition scan_and_sort (Fprint : Expr -> option string) (syntax : list File)
  (sorted : list decl) : Prop :=
  exists ds, generate Fprint syntax = Some ds /\ sort_Slice ds sorted.

(** The same run with [sort.Slice] taken as the function it is in the
    program: Go's implementation draws no random numbers, so [sort_fn]
    gives one ordering per input slice. *)
Definition scan_sort_run (sort_fn : list decl -> list decl) (Fprint : Expr -> option string)
  (syntax : list File) : option (list decl) :=
  option_map sort_fn (generate Fprint syntax).

(** A top-level function declaration without receiver and with an
    exported name, in one of the files. *)
Definition TopFunc (syntax : list File) (name : string) : Prop :=
  exists f ty body, In f syntax /\ In (FuncDecl None name ty body) (decls f) /\
                    IsExported name = true.

(** *** Example inputs *)

(** [const Pi = 3; type Shape interface{}; func Area() int { return 0 };
     func (s Shape) Name() string { return fmt.Sprint(s) }] *)
Definition shape_go : File :=
  {| file_name := "shape.go";
     decls :=
       [GenDecl CONST [ValueSpec ["Pi"] None [BasicLit "3"]];
        GenDecl TYPE [TypeSpec "Shape" (InterfaceType [])];
        FuncDecl None "Area" (FuncType [] [MkField [] (Ident "int")])
          (Some (BlockStmt [ReturnStmt [BasicLit "0"]]));
        FuncDecl (Some (MkField ["s"] (Ident "Shape"))) "Name"
          (FuncType [] [MkField [] (Ident "string")])
          (Some (BlockStmt [ReturnStmt [CallExpr (SelectorExpr (Ident "fmt") "Sprint")
                                          [Ident "s"]]]))] |}.

(** [func (s Shape) Area() int { const X = 1; return X }] and
    [func helper() { type T int }]: declarations in a method body and in
    the body of an unexported function. *)
Definition nested_go : File :=
  {| file_name := "nested.go";
     decls :=
       [FuncDecl (Some (MkField ["s"] (Ident "Shape"))) "Area"
          (FuncType [] [MkField [] (Ident "int")])
          (Some (BlockStmt [DeclStmt CONST [ValueSpec ["X"] None [BasicLit "1"]];
                            ReturnStmt [Ident "X"]]));
        FuncDecl None "helper" (FuncType [] [])
          (Some (BlockStmt [DeclStmt TYPE [TypeSpec "T" (Ident "int")]]))] |}.

(** [type S struct{}; func (S) A() { const X = 1 }; func (S) B() { const X = 2 }]:
    a package that compiles, with two local constants of the same name. *)
Definition methods_go : File :=
  {| file_name := "methods.go";
     decls :=
       [GenDecl TYPE [TypeSpec "S" (StructType [])];
        FuncDecl (Some (MkField [] (Ident "S"))) "A" (FuncType [] [])
          (Some (BlockStmt [DeclStmt CONST [ValueSpec ["X"] None [BasicLit "1"]]]));
        FuncDecl (Some (MkField [] (Ident "S"))) "B" (FuncType [] [])
          (Some (BlockStmt [DeclStmt CONST [ValueSpec ["X"] None [BasicLit "2"]]]))] |}.

(** [const ( A = iota; B )]: the second spec has neither a type nor a
    value, the usual way to continue an [iota] sequence. *)
Definition iota_go : File :=
  {| file_name := "iota.go";
     decls := [GenDecl CONST [ValueSpec ["A"] None [Ident "iota"]; ValueSpec ["B"] None []]] |}.

(** [printer.Fprint] on identifiers and basic literals. *)
Definition print_simple (e : Expr) : option string :=
  match e with
  | Ident n => Some n
  | BasicLit v => Some v
  | _ => None
  end.

(** *** Rendering the registration list *)

(** [func (k declKind) String() string]: [declStrings[int(k)]]. *)
Definition declKind_String (k : declKind) : string :=
  match k with
  | badDecl => "<bad decl>" | constDecl => "Const" | typeDecl => "Type"
  | funcDecl => "Func" | varDecl => "Var"
  end.

Definition tab : string := String (ascii_of_nat 9) EmptyString.
Definition newline : string := String (ascii_of_nat 10) EmptyString.

Section Render.
(** [%q] formatting ([strconv.Quote]) and [g.prefix]. *)
Variable Quote : string -> string.
Variable prefix : string.

(** [func (d decl) String() string] *)
Definition decl_String (d : decl) : string :=
  match kind d with
  | typeDecl =>
      ("pkgsyms.MakeType(" ++ Quote (Name d) ++ ", (*" ++ prefix ++ Name d
         ++ ")(nil))")%string
  | _ =>
      ("pkgsyms.Make" ++ declKind_String (kind d) ++ "(" ++ Quote (Name d)
         ++ ", " ++ prefix ++ Name d ++ ")")%string
  end.

(** [strings.Join(declstrs, "")] with
    [declstrs[i] = "\t\t" + d.String() + ",\n"]: the body of the
    generated [Add] call. *)
Definition declstrs (ds : list decl) : string :=
  String.concat "" (map (fun d => (tab ++ tab ++ decl_String d ++ "," ++ newline)%string) ds).
End Render.
End Scanner.

(* ================================================================== *)
(** * Proofs *)

(** ** The [Symbols] collection *)

Module RegistryFacts.
Import Registry.
Section Facts.
Context {Symbol : Type} (Name : Symbol -> string).

Lemma add_one_tables_inv (m : gmap string nat) (sl : list Symbol) (s : Symbol) :
  tables_inv Name m sl ->
  tables_inv Name (add_one Name (m, sl) s).1 (add_one Name (m, sl) s).2.
Proof.
  intros [Hmap Hnd]. unfold add_one. simpl.
  destruct (m !! Name s) eqn:E; [split; auto|]. simpl. split.
  - intros n i. destruct (decide (n = Name s)) as [->|Hne].
    + rewrite lookup_insert_eq. split.
      * intros [= <-]. exists s. rewrite lookup_app_r, Nat.sub_diag by lia. auto.
      * intros (s' & Hl & Hn). apply lookup_app_Some in Hl as [Hl|[Hlen Hl]].
        -- exfalso. assert (m !! Name s = Some i) by (apply Hmap; eauto). congruence.
        -- apply list_lookup_singleton_Some in Hl as [Hi ->]. f_equal; lia.
    + rewrite lookup_insert_ne by congruence. rewrite Hmap. split.
      * intros (s' & Hl & Hn). exists s'. split; auto. apply lookup_app_l_Some; auto.
      * intros (s' & Hl & Hn). apply lookup_app_Some in Hl as [Hl|[Hlen Hl]]; eauto.
        apply list_lookup_singleton_Some in Hl as [_ ->]. congruence.
  - rewrite map_app. simpl. apply NoDup_app. split; [auto|]. split; [|apply NoDup_singleton].
    intros x Hx Hx'. apply list_elem_of_singleton in Hx'. subst x.
    apply list_elem_of_In, in_map_iff in Hx as (s' & Hn & Hin).
    apply list_elem_of_In, list_elem_of_lookup in Hin as [i Hi].
    assert (m !! Name s = Some i) by (apply Hmap; eauto). congruence.
Qed.

Lemma add_one_eq (m : gmap string nat) (sl : list Symbol) (s : Symbol) :
  add_one Name (m, sl) s =
  match m !! Name s with
  | Some _ => (m, sl)
  | None => (<[Name s := length sl]> m, sl ++ [s])
  end.
Proof. reflexivity. Qed.

Lemma fold_add_tables_inv (ss : list Symbol) :
  forall m sl, tables_inv Name m sl ->
  tables_inv Name (fold_left (add_one Name) ss (m, sl)).1
                  (fold_left (add_one Name) ss (m, sl)).2.
Proof.
  induction ss as [|s ss IH]; intros m sl Hinv; cbn [fold_left]; [exact Hinv|].
  pose proof (add_one_tables_inv m sl s Hinv) as H.
  destruct (add_one Name (m, sl) s) as [m' sl']. apply IH, H.
Qed.

Lemma empty_tables_inv : tables_inv Name ∅ [].
Proof.
  split; [|constructor]. intros n i. rewrite lookup_empty. split.
  - discriminate.
  - intros (s & Hs & _). rewrite lookup_nil in Hs. discriminate.
Qed.

Lemma Add_Symbols_inv (syms : Symbols (Symbol:=Symbol)) (ss : list Symbol) :
  Symbols_inv Name syms -> Symbols_inv Name (Add Name syms ss).
Proof.
  unfold Symbols_inv, Add. destruct syms as [[m|] sl]; simpl; intros Hinv.
  - pose proof (fold_add_tables_inv ss m sl Hinv) as H.
    destruct (fold_left (add_one Name) ss (m, sl)). exact H.
  - pose proof (fold_add_tables_inv ss ∅ [] empty_tables_inv) as H.
    destruct (fold_left (add_one Name) ss (∅, [])). exact H.
Qed.

(** The loop of [Add] never rebinds a name nor moves an existing
    element. *)
Lemma fold_add_keeps (ss : list Symbol) :
  forall m sl n i r, m !! n = Some i -> sl !! i = Some r ->
  (fold_left (add_one Name) ss (m, sl)).1 !! n = Some i /\
  (fold_left (add_one Name) ss (m, sl)).2 !! i = Some r.
Proof.
  induction ss as [|s ss IH]; intros m sl n i r Hm Hl; cbn [fold_left]; [auto|].
  rewrite add_one_eq. destruct (m !! Name s) eqn:E; [apply IH; auto|].
  apply IH.
  - rewrite lookup_insert_ne; [exact Hm|]. intros Heq; subst n; congruence.
  - apply lookup_app_l_Some; exact Hl.
Qed.

Lemma fold_add_map_mono (ss : list Symbol) :
  forall m sl n i, m !! n = Some i ->
  (fold_left (add_one Name) ss (m, sl)).1 !! n = Some i.
Proof.
  induction ss as [|s ss IH]; intros m sl n i Hm; cbn [fold_left]; [auto|].
  rewrite add_one_eq. destruct (m !! Name s) eqn:E; apply IH; auto.
  rewrite lookup_insert_ne; [exact Hm|]. intros Heq; subst n; congruence.
Qed.

(** After the loop every name of [ss] is bound. *)
Lemma fold_add_binds (ss : list Symbol) :
  forall m sl s, In s ss ->
  is_Some ((fold_left (add_one Name) ss (m, sl)).1 !! Name s).
Proof.
  induction ss as [|s' ss IH]; intros m sl s Hin; [destruct Hin|].
  destruct Hin as [<-|Hin]; cbn [fold_left];
    [|destruct (add_one Name (m, sl) s'); apply IH; exact Hin].
  rewrite add_one_eq. destruct (m !! Name s') as [i|] eqn:E.
  - exists i. apply fold_add_map_mono; exact E.
  - exists (length sl). apply fold_add_map_mono, lookup_insert_eq.
Qed.

(** The loop only appends elements of [ss]. *)
Lemma fold_add_slice_from (ss : list Symbol) :
  forall m sl x, In x (fold_left (add_one Name) ss (m, sl)).2 -> In x sl \/ In x ss.
Proof.
  induction ss as [|s ss IH]; intros m sl x Hx; cbn [fold_left In] in *; [auto|].
  rewrite add_one_eq in Hx. destruct (m !! Name s) eqn:E.
  - destruct (IH _ _ _ Hx); auto.
  - destruct (IH _ _ _ Hx) as [H|H]; auto.
    apply in_app_or in H as [H|[<-|[]]]; auto.
Qed.

Lemma NoDup_map_In_inj (ss : list Symbol) (r s : Symbol) :
  NoDup (map Name ss) -> In r ss -> In s ss -> Name r = Name s -> r = s.
Proof.
  induction ss as [|x ss IH]; simpl; [tauto|]. intros Hnd Hr Hs Hn.
  apply NoDup_cons in Hnd as [Hx Hnd].
  destruct Hr as [<-|Hr], Hs as [<-|Hs]; auto.
  - exfalso. apply Hx. apply list_elem_of_In, in_map_iff. eauto.
  - exfalso. apply Hx. apply list_elem_of_In, in_map_iff. eauto.
Qed.

(** A collection satisfying the invariant never panics in [Lookup]. *)
Lemma Lookup_inv_total (syms : Symbols (Symbol:=Symbol)) (n : string) :
  Symbols_inv Name syms -> Lookup syms n <> None.
Proof.
  unfold Symbols_inv, Lookup. destruct syms as [[m|] sl]; simpl; [|discriminate].
  intros [Hmap _]. destruct (m !! n) as [i|] eqn:E; [|discriminate].
  apply Hmap in E as (s & Hs & _). rewrite Hs. discriminate.
Qed.

(** C2: every collection reached through [MakeSymbols] (or the zero
    value) and [Add] satisfies [names[n] == i] iff [slice[i].Name() == n]
    with pairwise distinct names in [slice]; [MakeSymbols] establishes
    it, [Add] preserves it and [Lookup] does not modify the collection. *)
Theorem Symbols_invariant :
  (forall c, Symbols_inv Name (MakeSymbols c)) /\
  (forall (syms : Symbols (Symbol:=Symbol)) ss,
      Symbols_inv Name syms -> Symbols_inv Name (Add Name syms ss)) /\
  (forall (syms : Symbols (Symbol:=Symbol)), reachable Name syms -> Symbols_inv Name syms).
Proof.
  split; [|split].
  - intros c. unfold MakeSymbols, Symbols_inv. destruct (c <? 0)%Z; apply empty_tables_inv.
  - apply Add_Symbols_inv.
  - induction 1 as [c| |syms ss _ IH].
    + unfold MakeSymbols, Symbols_inv. destruct (c <? 0)%Z; apply empty_tables_inv.
    + apply empty_tables_inv.
    + apply Add_Symbols_inv, IH.
Qed.

(** C1: adding a symbol whose name is already registered is a silent
    no-op: the collection is unchanged, and the record registered first
    is what [Lookup] returns after any later [Add]. *)
Theorem Add_duplicate_noop (syms : Symbols (Symbol:=Symbol)) (s r : Symbol)
  (Hreg : Lookup syms (Name s) = Some (Ok r)) :
  Add Name syms [s] = syms /\
  forall ss, Lookup (Add Name syms ss) (Name s) = Some (Ok r).
Proof.
  unfold Lookup in Hreg. destruct syms as [[m|] sl]; simpl in Hreg; [|discriminate].
  destruct (m !! Name s) as [i|] eqn:Em; [|discriminate].
  destruct (sl !! i) as [r'|] eqn:El; [|discriminate].
  injection Hreg as ->. split.
  - unfold Add. simpl. rewrite Em. reflexivity.
  - intros ss. unfold Add. simpl.
    pose proof (fold_add_keeps ss m sl _ _ _ Em El) as [H1 H2].
    destruct (fold_left (add_one Name) ss (m, sl)) as [m' sl']. simpl in *.
    unfold Lookup. simpl. rewrite H1, H2. reflexivity.
Qed.

(** C10: the zero value [Symbols{}] is usable: [Lookup] answers
    [NotFound{Sym: name}], and [Add] initialises the tables so that each
    added name is then found, bound to a symbol of [ss] of that name
    (the symbol itself when the names of [ss] are distinct). *)
Theorem zero_Symbols_total :
  (forall n, Lookup (zero_Symbols (Symbol:=Symbol)) n = Some (Err {| Pkg := ""; Sym := n |})) /\
  (forall (ss : list Symbol) s, In s ss ->
     exists r, Lookup (Add Name zero_Symbols ss) (Name s) = Some (Ok r) /\
               Name r = Name s /\ In r ss /\ (NoDup (map Name ss) -> r = s)).
Proof.
  split; [reflexivity|]. intros ss s Hin.
  pose proof (fold_add_binds ss ∅ [] s Hin) as [i Hi].
  pose proof (fold_add_tables_inv ss ∅ [] empty_tables_inv) as [Hmap _].
  pose proof (fold_add_slice_from ss ∅ []) as Hfrom.
  unfold Add, Lookup. simpl.
  destruct (fold_left (add_one Name) ss (∅, [])) as [m' sl']. simpl in *.
  rewrite Hi. apply Hmap in Hi as (r & Hr & Hn). rewrite Hr.
  assert (Hrin : In r ss).
  { destruct (Hfrom r) as [[]|H]; [|exact H].
    apply list_elem_of_In, list_elem_of_lookup. eauto. }
  exists r. split; [reflexivity|]. split; [exact Hn|]. split; [exact Hrin|].
  intros Hnd. apply (NoDup_map_In_inj ss); auto.
Qed.
End Facts.

Lemma Add_duplicate_noop_witness :
  let pi := SConst (Const.MakeConst "Pi" (VInt 3)) in
  let syms := Registry.Add symbol_Name Registry.zero_Symbols [pi] in
  Registry.Lookup syms "Pi" = Some (Ok pi) /\
  Registry.Add symbol_Name syms [pi] = syms /\
  (forall ss, Registry.Lookup (Registry.Add symbol_Name syms ss) "Pi" = Some (Ok pi)).
Proof.
  intros pi syms. split; [vm_compute; reflexivity|].
  apply (Add_duplicate_noop symbol_Name syms pi pi). vm_compute. reflexivity.
Defined.

Lemma Symbols_invariant_witness :
  Registry.Symbols_inv symbol_Name
    (Registry.Add symbol_Name (Registry.MakeSymbols 4)
       [SConst (Const.MakeConst "Pi" (VInt 3)); SFunc (Func.MakeFunc "Area" (VFunc "Area"));
        SConst (Const.MakeConst "Pi" (VInt 4))]).
Proof.
  destruct (Symbols_invariant symbol_Name) as (_ & _ & Hr).
  apply Hr. apply Registry.reach_add, Registry.reach_make.
Defined.

Lemma zero_Symbols_total_witness :
  let pi := SConst (Const.MakeConst "Pi" (VInt 3)) in
  let area := SFunc (Func.MakeFunc "Area" (VFunc "Area")) in
  In pi [area; pi] /\
  exists r, Registry.Lookup (Registry.Add symbol_Name Registry.zero_Symbols [area; pi]) "Pi"
              = Some (Ok r) /\ symbol_Name r = "Pi" /\ In r [area; pi] /\
            (NoDup (map symbol_Name [area; pi]) -> r = pi).
Proof.
  intros pi area. assert (Hin : In pi [area; pi]) by (right; left; reflexivity).
  split; [exact Hin|].
  exact (proj2 (zero_Symbols_total symbol_Name) [area; pi] pi Hin).
Defined.
End RegistryFacts.

(** ** The package index *)

Module IndexFacts.
Import Index.
Section Facts.
Context {Symbol : Type} (Name : Symbol -> string).

Lemma Of_fresh (name : string) (w : World (Symbol:=Symbol)) :
  Load name w = None ->
  Of name w =
    (length (heap w),
     {| pkgs := <[name := length (heap w)]> (pkgs w);
        heap := heap w ++ [{| pkg_Name := name; pkg_Symbols := Registry.zero_Symbols |}] |}).
Proof.
  unfold Of, Load, alloc_Package, LoadOrStore. intros E. rewrite E. simpl. rewrite E.
  reflexivity.
Qed.

(** No operation removes or rebinds a package name. *)
Lemma step_pkgs_mono (o : op (Symbol:=Symbol)) (w : World) (n : string) (p : loc) :
  pkgs w !! n = Some p -> pkgs (step Name o w) !! n = Some p.
Proof.
  intros H. destruct o as [name|name|q ss]; simpl.
  - destruct (Load name w) as [v|] eqn:E.
    + unfold Of. rewrite E. exact H.
    + rewrite Of_fresh by exact E. simpl.
      rewrite lookup_insert_ne; [exact H|]. intros <-. unfold Load in E. congruence.
  - exact H.
  - unfold AddTo. destruct (heap w !! q); exact H.
Qed.

Lemma run_pkgs_mono (os : list (op (Symbol:=Symbol))) :
  forall (w : World) n p, pkgs w !! n = Some p -> pkgs (run Name os w) !! n = Some p.
Proof.
  induction os as [|o os IH]; intros w n p H; simpl; [exact H|].
  apply IH, step_pkgs_mono, H.
Qed.

(** C3: [Of] returns the package already stored under [name], or stores
    and returns a new package with that name and empty symbols; after
    that, [Of name] returns the same package whatever operations ran in
    between.  [Lookup] of an absent name answers [NotFound{Pkg: name}]
    and leaves the index as it is. *)
Theorem Of_Lookup_index (w : World (Symbol:=Symbol)) (name : string) :
  (forall p, Load name w = Some p -> Of name w = (p, w)) /\
  (Load name w = None ->
     pkgs (Of name w).2 = <[name := (Of name w).1]> (pkgs w) /\
     heap (Of name w).2 !! (Of name w).1 =
       Some {| pkg_Name := name; pkg_Symbols := Registry.zero_Symbols |}) /\
  (forall os, Of name (run Name os (Of name w).2) = ((Of name w).1, run Name os (Of name w).2)) /\
  (Load name w = None ->
     Lookup name w = Err {| Pkg := name; Sym := "" |} /\
     pkgs (step Name (OpLookup name) w) = pkgs w).
Proof.
  split; [|split; [|split]].
  - intros p E. unfold Of. rewrite E. reflexivity.
  - intros E. rewrite Of_fresh by exact E. simpl. split; [reflexivity|].
    rewrite lookup_app_r, Nat.sub_diag by lia. reflexivity.
  - intros os.
    assert (Hb : pkgs (Of name w).2 !! name = Some (Of name w).1).
    { destruct (Load name w) as [v|] eqn:E.
      - unfold Of. rewrite E. exact E.
      - rewrite Of_fresh by exact E. apply lookup_insert_eq. }
    apply (run_pkgs_mono os) in Hb. unfold Of at 1, Load. rewrite Hb. reflexivity.
  - intros E. unfold Lookup. rewrite E. split; reflexivity.
Qed.
End Facts.

Lemma Of_Lookup_index_witness :
  let w0 := {| pkgs := ∅; heap := [] |} : World (Symbol:=symbol) in
  Load "fmt" w0 = None /\
  heap (Of "fmt" w0).2 !! (Of "fmt" w0).1 =
    Some {| pkg_Name := "fmt"; pkg_Symbols := Registry.zero_Symbols |} /\
  Lookup "fmt" w0 = Err {| Pkg := "fmt"; Sym := "" |}.
Proof.
  intros w0. assert (E : Load "fmt" w0 = None) by reflexivity.
  destruct (Of_Lookup_index symbol_Name w0 "fmt") as (_ & H2 & _ & H4).
  split; [exact E|]. split; [exact (proj2 (H2 E))|exact (proj1 (H4 E))].
Defined.
End IndexFacts.

(** ** Ordering of the descriptors *)

Module OrderFacts.
Import Scanner.

Lemma ascii_compare_lt_trans (a b c : ascii) :
  Ascii.compare a b = Lt -> Ascii.compare b c = Lt -> Ascii.compare a c = Lt.
Proof.
  unfold Ascii.compare. rewrite !N.compare_lt_iff. lia.
Qed.

Lemma ascii_compare_refl (a : ascii) : Ascii.compare a a = Eq.
Proof. unfold Ascii.compare. apply N.compare_refl. Qed.

Lemma string_compare_lt_trans (s1 : string) :
  forall s2 s3, String.compare s1 s2 = Lt -> String.compare s2 s3 = Lt ->
  String.compare s1 s3 = Lt.
Proof.
  induction s1 as [|x s1 IH]; intros [|y s2] [|z s3]; simpl; try discriminate; auto.
  destruct (Ascii.compare x y) eqn:Exy; try discriminate;
  destruct (Ascii.compare y z) eqn:Eyz; try discriminate; intros H1 H2.
  - apply Ascii.compare_eq_iff in Exy, Eyz. subst. rewrite ascii_compare_refl.
    eauto.
  - apply Ascii.compare_eq_iff in Exy. subst. rewrite Eyz. reflexivity.
  - apply Ascii.compare_eq_iff in Eyz. subst. rewrite Exy. reflexivity.
  - rewrite (ascii_compare_lt_trans _ _ _ Exy Eyz). reflexivity.
Qed.

Lemma string_compare_refl (s : string) : String.compare s s = Eq.
Proof. induction s as [|x s IH]; simpl; [reflexivity|]. rewrite ascii_compare_refl. exact IH. Qed.

Lemma string_leb_trans (a b c : string) :
  String.leb a b = true -> String.leb b c = true -> String.leb a c = true.
Proof.
  unfold String.leb.
  destruct (String.compare a b) eqn:Eab; try discriminate;
  destruct (String.compare b c) eqn:Ebc; try discriminate; intros _ _.
  - apply String.compare_eq_iff in Eab, Ebc. subst. rewrite string_compare_refl. reflexivity.
  - apply String.compare_eq_iff in Eab. subst. rewrite Ebc. reflexivity.
  - apply String.compare_eq_iff in Ebc. subst. rewrite Eab. reflexivity.
  - rewrite (string_compare_lt_trans _ _ _ Eab Ebc). reflexivity.
Qed.

(** [less b a] is false exactly when [a] may precede [b]. *)
Lemma less_false_iff (a b : decl) : less b a = false <-> kind_then_name a b.
Proof.
  unfold less, kind_then_name, String.leb.
  rewrite (String.compare_antisym (Name a) (Name b)).
  destruct (Z.eqb_spec (declKind_int (kind b) - declKind_int (kind a)) 0) as [E|E]; simpl.
  - destruct (String.compare (Name b) (Name a)); simpl; split; intros H; try discriminate;
      try (right; split; [lia|reflexivity]); try reflexivity;
      destruct H as [H|[_ H]]; try lia; discriminate.
  - rewrite Z.ltb_ge. split; intros H.
    + left. lia.
    + destruct H as [H|[H _]]; lia.
Qed.

Lemma kind_then_name_trans (a b c : decl) :
  kind_then_name a b -> kind_then_name b c -> kind_then_name a c.
Proof.
  unfold kind_then_name. intros [H1|[H1 L1]] [H2|[H2 L2]]; try (left; lia).
  right. split; [lia|]. eapply string_leb_trans; eauto.
Qed.

Lemma kind_then_name_antisym (a b : decl) :
  kind_then_name a b -> kind_then_name b a -> key a = key b.
Proof.
  unfold kind_then_name, key. intros [H1|[H1 L1]] [H2|[H2 L2]]; try lia.
  rewrite H1, (String.leb_antisym _ _ L1 L2). reflexivity.
Qed.

Lemma kind_then_name_refl (a : decl) : kind_then_name a a.
Proof.
  right. split; [reflexivity|]. unfold String.leb. rewrite string_compare_refl. reflexivity.
Qed.

Lemma StronglySorted_remove {A : Type} (R : A -> A -> Prop) (p q : list A) (a : A) :
  StronglySorted R (p ++ a :: q) -> StronglySorted R (p ++ q) /\ Forall (fun x => R x a) p.
Proof.
  induction p as [|x p IH]; simpl; intros S.
  - apply StronglySorted_inv in S as [S _]. split; [exact S|constructor].
  - apply StronglySorted_inv in S as [S F]. destruct (IH S) as [S' Fp].
    apply Forall_app in F as [Fp' Faq]. inversion Faq as [|? ? Hxa Fq]; subst.
    split; [constructor; [exact S'|apply Forall_app; split; assumption]|].
    constructor; assumption.
Qed.

(** Two lists sorted by [kind_then_name] that are permutations of each
    other list the same keys in the same order. *)
Lemma sorted_perm_keys (l1 : list decl) :
  forall l2, StronglySorted kind_then_name l1 -> StronglySorted kind_then_name l2 ->
  Permutation l1 l2 -> map key l1 = map key l2.
Proof.
  induction l1 as [|a l1 IH]; intros l2 S1 S2 P.
  - apply Permutation_nil in P. subst l2. reflexivity.
  - assert (Ha : In a l2) by (apply (Permutation_in a P); left; reflexivity).
    apply in_split in Ha as (p & q & ->).
    apply Permutation_cons_app_inv in P.
    apply StronglySorted_inv in S1 as [S1 F1].
    destruct (StronglySorted_remove _ p q a S2) as [S2' Fp].
    assert (Hp : Forall (fun x => key x = key a) p).
    { apply List.Forall_forall. intros x Hx.
      pose proof (proj1 (List.Forall_forall _ _) Fp x Hx) as Hxa.
      assert (Hx1 : In x l1) by (apply (Permutation_in x (Permutation_sym P)), in_or_app; left; exact Hx).
      pose proof (proj1 (List.Forall_forall _ _) F1 x Hx1) as Hax.
      exact (kind_then_name_antisym x a Hxa Hax). }
    simpl. rewrite (IH (p ++ q) S1 S2' P), !map_app. simpl.
    clear -Hp. induction Hp as [|x p Hx _ IHp]; [reflexivity|]. simpl. rewrite Hx, IHp. reflexivity.
Qed.

(** [decl.String] reads only the kind and the name of a descriptor. *)
Lemma decl_String_key (Quote : string -> string) (prefix : string) (a b : decl) :
  key a = key b -> decl_String Quote prefix a = decl_String Quote prefix b.
Proof.
  unfold key, decl_String. intros H. injection H as Hk Hn. rewrite Hn.
  destruct (kind a), (kind b); try discriminate; reflexivity.
Qed.

Lemma declstrs_keys (Quote : string -> string) (prefix : string) (l1 : list decl) :
  forall l2, map key l1 = map key l2 -> declstrs Quote prefix l1 = declstrs Quote prefix l2.
Proof.
  unfold declstrs.
  induction l1 as [|a l1 IH]; intros [|b l2] H; try discriminate; [reflexivity|].
  assert (Hab : key a = key b) by (simpl in H; congruence).
  assert (Hl : map key l1 = map key l2) by (simpl in H; congruence).
  simpl. rewrite (decl_String_key Quote prefix a b Hab).
  specialize (IH l2 Hl). destruct l1 as [|a' l1], l2 as [|b' l2]; try discriminate; simpl in *;
    [reflexivity|]. rewrite IH. reflexivity.
Qed.

Lemma Sorted_weaken {A : Type} (R R' : A -> A -> Prop) (l : list A) :
  (forall a b, R a b -> R' a b) -> Sorted R l -> Sorted R' l.
Proof.
  intros HR S. induction S as [|a l S IH Hd]; constructor; [exact IH|].
  destruct Hd; constructor. apply HR. assumption.
Qed.

(** A [sort.Slice] result is sorted by kind, then name. *)
Lemma sort_Slice_sorted (x y : list decl) :
  sort_Slice x y -> StronglySorted kind_then_name y.
Proof.
  intros [_ S]. apply Sorted_StronglySorted.
  - intros a b c. apply kind_then_name_trans.
  - revert S. apply Sorted_weaken. intros a b. apply less_false_iff.
Qed.

(** C6: after the scan the descriptors are sorted by kind
    ([Const < Type < Func < Var]), then by name in byte order.  Any two
    results of the scan and [sort.Slice] list the same (kind, name) pairs
    in the same order and give byte-identical registration text;
    [sort.Slice] is not stable, so descriptors of equal kind and name may
    be swapped, but they differ only in their [Type] text, which the
    output does not show.  With [sort.Slice] run as the deterministic
    function it is, two runs give the same list. *)
Theorem scan_order_deterministic (Fprint : Expr -> option string) (syntax : list File)
  (out1 out2 : list decl)
  (H1 : scan_and_sort Fprint syntax out1) (H2 : scan_and_sort Fprint syntax out2) :
  StronglySorted kind_then_name out1 /\
  map key out1 = map key out2 /\
  (forall Quote prefix, declstrs Quote prefix out1 = declstrs Quote prefix out2) /\
  (forall sort_fn : list decl -> list decl, (forall x, sort_Slice x (sort_fn x)) ->
     forall r1 r2, scan_sort_run sort_fn Fprint syntax = Some r1 ->
     scan_sort_run sort_fn Fprint syntax = Some r2 ->
     r1 = r2 /\ StronglySorted kind_then_name r1 /\ map key r1 = map key out1).
Proof.
  destruct H1 as (ds & G1 & S1). destruct H2 as (ds' & G2 & S2).
  rewrite G1 in G2. injection G2 as <-.
  assert (Hk : forall o1 o2, sort_Slice ds o1 -> sort_Slice ds o2 -> map key o1 = map key o2).
  { intros o1 o2 T1 T2. apply sorted_perm_keys.
    - exact (sort_Slice_sorted _ _ T1).
    - exact (sort_Slice_sorted _ _ T2).
    - destruct T1 as [P1 _], T2 as [P2 _].
      exact (Permutation_trans (Permutation_sym P1) P2). }
  split; [exact (sort_Slice_sorted _ _ S1)|].
  split; [exact (Hk _ _ S1 S2)|].
  split; [intros Quote prefix; apply declstrs_keys, (Hk _ _ S1 S2)|].
  intros sort_fn Hs r1 r2 E1 E2. rewrite E1 in E2. injection E2 as <-.
  unfold scan_sort_run in E1. rewrite G1 in E1. injection E1 as <-.
  split; [reflexivity|]. split; [exact (sort_Slice_sorted _ _ (Hs ds))|].
  exact (Hk _ _ (Hs ds) S1).
Qed.

(** On [methods_go] the scan collects two constants [X] from the method
    bodies; the two orders [sort.Slice] may give them are both results,
    with the same keys and the same text. *)
Lemma scan_order_deterministic_witness :
  let ts := {| kind := typeDecl; Name := "S"; Type_ := "" |} in
  let x1 := {| kind := constDecl; Name := "X"; Type_ := "1" |} in
  let x2 := {| kind := constDecl; Name := "X"; Type_ := "2" |} in
  scan_and_sort print_simple [methods_go] [x1; x2; ts] /\
  scan_and_sort print_simple [methods_go] [x2; x1; ts] /\
  map key [x1; x2; ts] = map key [x2; x1; ts] /\
  (forall Quote prefix, declstrs Quote prefix [x1; x2; ts] = declstrs Quote prefix [x2; x1; ts]).
Proof.
  intros ts x1 x2.
  assert (G : generate print_simple [methods_go] = Some [ts; x1; x2]) by (vm_compute; reflexivity).
  assert (H1 : scan_and_sort print_simple [methods_go] [x1; x2; ts]).
  { exists [ts; x1; x2]. split; [exact G|]. split.
    - exact (Permutation_cons_append [x1; x2] ts).
    - repeat constructor. }
  assert (H2 : scan_and_sort print_simple [methods_go] [x2; x1; ts]).
  { exists [ts; x1; x2]. split; [exact G|]. split.
    - exact (Permutation_trans (Permutation_cons_append [x1; x2] ts) (perm_swap x2 x1 [ts])).
    - repeat constructor. }
  destruct (scan_order_deterministic print_simple [methods_go] _ _ H1 H2) as (_ & Hk & Hd & _).
  split; [exact H1|]. split; [exact H2|]. split; [exact Hk|exact Hd].
Defined.
End OrderFacts.

(** ** The scan *)

Module ScannerFacts.
Import Scanner.

(** Induction over the syntax, with the lists of children as [Forall]. *)
Section SyntaxInd.
Variables (PE : Expr -> Prop) (PF : Field -> Prop) (PS : Stmt -> Prop) (PP : Spec -> Prop).
Hypothesis H_Ident : forall n, PE (Ident n).
Hypothesis H_BasicLit : forall v, PE (BasicLit v).
Hypothesis H_StarExpr : forall x, PE x -> PE (StarExpr x).
Hypothesis H_SelectorExpr : forall x sel, PE x -> PE (SelectorExpr x sel).
Hypothesis H_CallExpr : forall fn args, PE fn -> Forall PE args -> PE (CallExpr fn args).
Hypothesis H_FuncLit : forall ty body, PE ty -> PS body -> PE (FuncLit ty body).
Hypothesis H_FuncType : forall ps rs, Forall PF ps -> Forall PF rs -> PE (FuncType ps rs).
Hypothesis H_InterfaceType : forall ms, Forall PF ms -> PE (InterfaceType ms).
Hypothesis H_StructType : forall fs, Forall PF fs -> PE (StructType fs).
Hypothesis H_MkField : forall ns ty, PE ty -> PF (MkField ns ty).
Hypothesis H_DeclStmt : forall tok specs, Forall PP specs -> PS (DeclStmt tok specs).
Hypothesis H_ExprStmt : forall x, PE x -> PS (ExprStmt x).
Hypothesis H_AssignStmt : forall lhs rhs, Forall PE lhs -> Forall PE rhs -> PS (AssignStmt lhs rhs).
Hypothesis H_ReturnStmt : forall rs, Forall PE rs -> PS (ReturnStmt rs).
Hypothesis H_BlockStmt : forall l, Forall PS l -> PS (BlockStmt l).
Hypothesis H_ImportSpec : forall path, PP (ImportSpec path).
Hypothesis H_TypeSpec : forall n ty, PE ty -> PP (TypeSpec n ty).
Hypothesis H_ValueSpec : forall ns ty vs,
  (forall t, ty = Some t -> PE t) -> Forall PE vs -> PP (ValueSpec ns ty vs).

Fixpoint Expr_ind' (e : Expr) : PE e :=
  let fix exprs (l : list Expr) : Forall PE l :=
    match l with [] => List.Forall_nil _ | x :: l => List.Forall_cons _ x l (Expr_ind' x) (exprs l) end in
  let fix fields (l : list Field) : Forall PF l :=
    match l with [] => List.Forall_nil _ | x :: l => List.Forall_cons _ x l (Field_ind' x) (fields l) end in
  match e with
  | Ident n => H_Ident n
  | BasicLit v => H_BasicLit v
  | StarExpr x => H_StarExpr x (Expr_ind' x)
  | SelectorExpr x sel => H_SelectorExpr x sel (Expr_ind' x)
  | CallExpr fn args => H_CallExpr fn args (Expr_ind' fn) (exprs args)
  | FuncLit ty body => H_FuncLit ty body (Expr_ind' ty) (Stmt_ind' body)
  | FuncType ps rs => H_FuncType ps rs (fields ps) (fields rs)
  | InterfaceType ms => H_InterfaceType ms (fields ms)
  | StructType fs => H_StructType fs (fields fs)
  end
with Field_ind' (f : Field) : PF f :=
  match f with MkField ns ty => H_MkField ns ty (Expr_ind' ty) end
with Stmt_ind' (s : Stmt) : PS s :=
  let fix exprs (l : list Expr) : Forall PE l :=
    match l with [] => List.Forall_nil _ | x :: l => List.Forall_cons _ x l (Expr_ind' x) (exprs l) end in
  let fix stmts (l : list Stmt) : Forall PS l :=
    match l with [] => List.Forall_nil _ | x :: l => List.Forall_cons _ x l (Stmt_ind' x) (stmts l) end in
  let fix specs (l : list Spec) : Forall PP l :=
    match l with [] => List.Forall_nil _ | x :: l => List.Forall_cons _ x l (Spec_ind' x) (specs l) end in
  match s with
  | DeclStmt tok sp => H_DeclStmt tok sp (specs sp)
  | ExprStmt x => H_ExprStmt x (Expr_ind' x)
  | AssignStmt lhs rhs => H_AssignStmt lhs rhs (exprs lhs) (exprs rhs)
  | ReturnStmt rs => H_ReturnStmt rs (exprs rs)
  | BlockStmt l => H_BlockStmt l (stmts l)
  end
with Spec_ind' (s : Spec) : PP s :=
  let fix exprs (l : list Expr) : Forall PE l :=
    match l with [] => List.Forall_nil _ | x :: l => List.Forall_cons _ x l (Expr_ind' x) (exprs l) end in
  match s with
  | ImportSpec path => H_ImportSpec path
  | TypeSpec n ty => H_TypeSpec n ty (Expr_ind' ty)
  | ValueSpec ns ty vs =>
      H_ValueSpec ns ty vs
        (fun t (Ht : ty = Some t) =>
           match Ht in _ = o return match o with Some t' => PE t' | None => True end with
           | eq_refl => match ty return match ty with Some t' => PE t' | None => True end with
                        | Some t' => Expr_ind' t'
                        | None => I
                        end
           end)
        (exprs vs)
  end.
End SyntaxInd.

Section Walk.
Variable Fprint : Expr -> option string.

(** [acc'] extends [acc] with descriptors satisfying [P]. *)
Definition grows (P : decl -> Prop) (acc acc' : list decl) : Prop :=
  exists ds, acc' = acc ++ ds /\ Forall P ds.

Definition NotFunc (d : decl) : Prop := kind d <> funcDecl.

Lemma grows_refl P acc : grows P acc acc.
Proof. exists []. rewrite app_nil_r. split; [reflexivity|constructor]. Qed.

Lemma grows_trans P a b c : grows P a b -> grows P b c -> grows P a c.
Proof.
  intros (d1 & -> & F1) (d2 & -> & F2). exists (d1 ++ d2).
  rewrite app_assoc. split; [reflexivity|]. apply Forall_app. auto.
Qed.

Lemma grows_mono (P Q : decl -> Prop) a b :
  (forall d, P d -> Q d) -> grows P a b -> grows Q a b.
Proof.
  intros HPQ (ds & -> & F). exists ds. split; [reflexivity|].
  revert F. apply List.Forall_impl, HPQ.
Qed.

Lemma bind_grows P (m : option (list decl)) (k : list decl -> option (list decl)) acc acc' :
  (forall a, m = Some a -> grows P acc a) ->
  (forall a a', k a = Some a' -> grows P a a') ->
  match m with Some a => k a | None => None end = Some acc' -> grows P acc acc'.
Proof.
  intros Hm Hk H. destruct m as [a|]; [|discriminate].
  apply (grows_trans _ _ a); [apply Hm; reflexivity|apply Hk, H].
Qed.

Lemma walk_list_grows {A : Type} P (w : A -> list decl -> option (list decl)) (l : list A) :
  Forall (fun x => forall acc acc', w x acc = Some acc' -> grows P acc acc') l ->
  forall acc acc', walk_list w l acc = Some acc' -> grows P acc acc'.
Proof.
  induction 1 as [|x l Hx _ IH]; intros acc acc' H; simpl in H.
  - injection H as <-. apply grows_refl.
  - destruct (w x acc) as [a|] eqn:E; [|discriminate].
    apply (grows_trans _ _ a); [apply Hx, E|apply IH, H].
Qed.

Lemma visit_grows P (n : Node) acc (k : list decl -> option (list decl)) acc' :
  (forall ds b, inspect Fprint n = Some (ds, b) -> Forall P ds) ->
  (forall a a', k a = Some a' -> grows P a a') ->
  visit Fprint n acc k = Some acc' -> grows P acc acc'.
Proof.
  intros Hi Hk. unfold visit.
  destruct (inspect Fprint n) as [[ds []]|] eqn:E; intros H; [| |discriminate].
  - apply (grows_trans _ _ (acc ++ ds)); [|apply Hk, H].
    exists ds. split; [reflexivity|]. apply (Hi _ true); reflexivity.
  - injection H as <-. exists ds. split; [reflexivity|]. apply (Hi _ false); reflexivity.
Qed.

Lemma value_names_kind k names :
  forall i ty vs ds, value_names Fprint k names i ty vs = Some ds ->
  Forall (fun d => kind d = k) ds.
Proof.
  induction names as [|id names IH]; intros i ty vs ds H; simpl in H.
  - injection H as <-. constructor.
  - destruct (IsExported id).
    + destruct (match ty with Some t => Some t | None => vs !! i end) as [tp|];
        [|discriminate].
      destruct (Fprint tp) as [s|]; [|discriminate].
      destruct (value_names Fprint k names (S i) ty vs) as [ds'|] eqn:E; [|discriminate].
      injection H as <-. simpl. constructor; [reflexivity|]. eapply IH, E.
    + destruct (value_names Fprint k names (S i) ty vs) as [ds'|] eqn:E; [|discriminate].
      injection H as <-. eapply IH, E.
Qed.

Lemma value_specs_kind k specs :
  forall ds, value_specs Fprint k specs = Some ds -> Forall (fun d => kind d = k) ds.
Proof.
  induction specs as [|[| |names ty vs] specs IH]; intros ds H; simpl in H;
    try discriminate.
  - injection H as <-. constructor.
  - destruct (value_names Fprint k names 0 ty vs) as [d|] eqn:E1; [|discriminate].
    destruct (value_specs Fprint k specs) as [d'|] eqn:E2; [|discriminate].
    injection H as <-. apply Forall_app. split; [eapply value_names_kind, E1|apply IH; reflexivity].
Qed.

Lemma type_specs_kind specs :
  forall ds, type_specs specs = Some ds -> Forall (fun d => kind d = typeDecl) ds.
Proof.
  induction specs as [|[|name ty|] specs IH]; intros ds H; simpl in H; try discriminate.
  - injection H as <-. constructor.
  - destruct (type_specs specs) as [d'|] eqn:E; [|discriminate].
    injection H as <-. apply Forall_app. split; [|apply IH; reflexivity].
    destruct (IsExported name); repeat constructor.
Qed.

(** A [GenDecl] never yields a function descriptor. *)
Lemma inspect_GenDecl_nofunc tok specs ds b :
  inspect Fprint (NDecl (GenDecl tok specs)) = Some (ds, b) -> Forall NotFunc ds.
Proof.
  unfold NotFunc. destruct tok; simpl; intros H.
  - injection H as <- _. constructor.
  - destruct (value_specs Fprint constDecl specs) as [d|] eqn:E; [|discriminate].
    injection H as <- _. apply value_specs_kind in E. revert E.
    apply List.Forall_impl. intros d' ->. discriminate.
  - destruct (type_specs specs) as [d|] eqn:E; [|discriminate].
    injection H as <- _. apply type_specs_kind in E. revert E.
    apply List.Forall_impl. intros d' ->. discriminate.
  - destruct (value_specs Fprint varDecl specs) as [d|] eqn:E; [|discriminate].
    injection H as <- _. apply value_specs_kind in E. revert E.
    apply List.Forall_impl. intros d' ->. discriminate.
Qed.

Ltac other_node := intros ds b Hi; injection Hi as <- _; constructor.
Ltac start_node :=
  intros acc acc' H; cbn [walk_expr walk_field walk_stmt walk_spec] in H; revert H;
  apply visit_grows; [other_node|intros a a' H].
Ltac done_node :=
  match goal with Hs : Some _ = Some _ |- _ => injection Hs as <-; apply grows_refl end.

(** Below the top level, the walk only finds constants, types and
    variables: no function descriptor comes from a nested scope. *)
Lemma walk_nested_nofunc :
  (forall e acc acc', walk_expr Fprint e acc = Some acc' -> grows NotFunc acc acc') /\
  (forall f acc acc', walk_field Fprint f acc = Some acc' -> grows NotFunc acc acc') /\
  (forall s acc acc', walk_stmt Fprint s acc = Some acc' -> grows NotFunc acc acc') /\
  (forall s acc acc', walk_spec Fprint s acc = Some acc' -> grows NotFunc acc acc').
Proof.
  set (PE := fun e => forall acc acc', walk_expr Fprint e acc = Some acc' -> grows NotFunc acc acc').
  set (PF := fun f => forall acc acc', walk_field Fprint f acc = Some acc' -> grows NotFunc acc acc').
  set (PS := fun s => forall acc acc', walk_stmt Fprint s acc = Some acc' -> grows NotFunc acc acc').
  set (PP := fun s => forall acc acc', walk_spec Fprint s acc = Some acc' -> grows NotFunc acc acc').
  assert (h1 : forall n, PE (Ident n)) by (intros n; start_node; done_node).
  assert (h2 : forall v, PE (BasicLit v)) by (intros v; start_node; done_node).
  assert (h3 : forall x, PE x -> PE (StarExpr x)) by (intros x IH; start_node; exact (IH _ _ H)).
  assert (h4 : forall x sel, PE x -> PE (SelectorExpr x sel))
    by (intros x sel IH; start_node; exact (IH _ _ H)).
  assert (h5 : forall fn args, PE fn -> Forall PE args -> PE (CallExpr fn args)).
  { intros fn args IH IHs; start_node. revert H. apply bind_grows; [apply IH|].
    apply walk_list_grows, IHs. }
  assert (h6 : forall ty body, PE ty -> PS body -> PE (FuncLit ty body)).
  { intros ty body IH IHb; start_node. revert H. apply bind_grows; [apply IH|apply IHb]. }
  assert (h7 : forall ps rs, Forall PF ps -> Forall PF rs -> PE (FuncType ps rs)).
  { intros ps rs IHp IHr; start_node. revert H.
    apply bind_grows; apply walk_list_grows; assumption. }
  assert (h8 : forall ms, Forall PF ms -> PE (InterfaceType ms)).
  { intros ms IHs; start_node. revert H. apply walk_list_grows, IHs. }
  assert (h9 : forall fs, Forall PF fs -> PE (StructType fs)).
  { intros fs IHs; start_node. revert H. apply walk_list_grows, IHs. }
  assert (h10 : forall ns ty, PE ty -> PF (MkField ns ty))
    by (intros ns ty IH; start_node; exact (IH _ _ H)).
  assert (h11 : forall tok specs, Forall PP specs -> PS (DeclStmt tok specs)).
  { intros tok specs IHs; start_node. revert H. apply visit_grows.
    - intros ds b. apply inspect_GenDecl_nofunc.
    - apply walk_list_grows, IHs. }
  assert (h12 : forall x, PE x -> PS (ExprStmt x)) by (intros x IH; start_node; exact (IH _ _ H)).
  assert (h13 : forall lhs rhs, Forall PE lhs -> Forall PE rhs -> PS (AssignStmt lhs rhs)).
  { intros lhs rhs IHl IHr; start_node. revert H.
    apply bind_grows; apply walk_list_grows; assumption. }
  assert (h14 : forall rs, Forall PE rs -> PS (ReturnStmt rs)).
  { intros rs IHs; start_node. revert H. apply walk_list_grows, IHs. }
  assert (h15 : forall l, Forall PS l -> PS (BlockStmt l)).
  { intros l IHs; start_node. revert H. apply walk_list_grows, IHs. }
  assert (h16 : forall path, PP (ImportSpec path)) by (intros path; start_node; done_node).
  assert (h17 : forall n ty, PE ty -> PP (TypeSpec n ty))
    by (intros n ty IH; start_node; exact (IH _ _ H)).
  assert (h18 : forall ns ty vs, (forall t, ty = Some t -> PE t) -> Forall PE vs ->
                PP (ValueSpec ns ty vs)).
  { intros ns ty vs IHt IHs; start_node. revert H. apply bind_grows.
    - destruct ty as [t|]; intros a1 H1.
      + exact (IHt t eq_refl _ _ H1).
      + injection H1 as <-. apply grows_refl.
    - apply walk_list_grows, IHs. }
  split; [exact (Expr_ind' PE PF PS PP h1 h2 h3 h4 h5 h6 h7 h8 h9 h10 h11 h12 h13 h14
                   h15 h16 h17 h18)|].
  split; [exact (Field_ind' PE PF PS PP h1 h2 h3 h4 h5 h6 h7 h8 h9 h10 h11 h12 h13 h14
                   h15 h16 h17 h18)|].
  split; [exact (Stmt_ind' PE PF PS PP h1 h2 h3 h4 h5 h6 h7 h8 h9 h10 h11 h12 h13 h14
                   h15 h16 h17 h18)|].
  exact (Spec_ind' PE PF PS PP h1 h2 h3 h4 h5 h6 h7 h8 h9 h10 h11 h12 h13 h14
           h15 h16 h17 h18).
Qed.

Definition TopOK (syntax : list File) (d : decl) : Prop :=
  kind d = funcDecl -> TopFunc syntax (Name d).

Lemma nested_Forall {A : Type} (w : A -> list decl -> option (list decl)) (l : list A) :
  (forall x acc acc', w x acc = Some acc' -> grows NotFunc acc acc') ->
  Forall (fun x => forall acc acc', w x acc = Some acc' -> grows NotFunc acc acc') l.
Proof. intros H. apply List.Forall_forall. intros x _. apply H. Qed.

Lemma walk_decl_top (syntax : list File) (f : File) (d : Decl) acc acc' :
  In f syntax -> In d (decls f) ->
  walk_decl Fprint d acc = Some acc' -> grows (TopOK syntax) acc acc'.
Proof.
  intros Hf Hd. destruct walk_nested_nofunc as (HE & HF & HS & HP).
  assert (Hmono : forall a b, grows NotFunc a b -> grows (TopOK syntax) a b).
  { intros a b. apply grows_mono. intros x Hx Hk. contradiction. }
  unfold walk_decl. apply visit_grows.
  - intros ds b Hi. destruct d as [tok specs|recv name ty body].
    + apply inspect_GenDecl_nofunc in Hi. revert Hi. apply List.Forall_impl.
      intros x Hx Hk. contradiction.
    + simpl in Hi. destruct recv as [r|].
      * injection Hi as <- _. constructor.
      * destruct (IsExported name) eqn:Ex; injection Hi as <- _; [|constructor].
        constructor; [|constructor]. intros _. exists f, ty, body. simpl. auto.
  - intros a a' H. apply Hmono. destruct d as [tok specs|recv name ty body].
    + revert H. apply walk_list_grows, nested_Forall, HP.
    + revert H. apply bind_grows.
      * destruct recv as [r|]; intros a1 H1; [exact (HF _ _ _ H1)|].
        injection H1 as <-. apply grows_refl.
      * intros a1 a2. apply bind_grows; [intros a3; apply HE|].
        destruct body as [b|]; intros a3 a4 H4; [exact (HS _ _ _ H4)|].
        injection H4 as <-. apply grows_refl.
Qed.

(** Every function descriptor of a scan comes from a top-level function
    declaration without receiver and with an exported name. *)
Lemma generate_TopOK (syntax : list File) (ds : list decl) :
  generate Fprint syntax = Some ds -> Forall (TopOK syntax) ds.
Proof.
  intros H. unfold generate in H.
  assert (G : grows (TopOK syntax) [] ds).
  { revert H. apply walk_list_grows. apply List.Forall_forall. intros f Hf acc acc'.
    unfold walk_file. apply visit_grows; [intros ds0 b0 Hi; injection Hi as <- _; constructor|].
    apply walk_list_grows. apply List.Forall_forall. intros d Hd a a'.
    apply (walk_decl_top syntax f d); assumption. }
  destruct G as (ds' & -> & F). exact F.
Qed.
End Walk.

(** C4: on [const Pi = 3; type Shape interface{}; func Area() int;
    func (s Shape) Name() string] the scan yields exactly a constant [Pi],
    a type [Shape] and a function [Area], nothing for the method [Name];
    and in every scan a function descriptor stems from a package-scope
    function without receiver whose name is exported. *)
Theorem scan_classification (Fprint : Expr -> option string) (s : string)
  (Hp : Fprint (BasicLit "3") = Some s) :
  generate Fprint [shape_go] =
    Some [{| kind := constDecl; Name := "Pi"; Type_ := s |};
          {| kind := typeDecl; Name := "Shape"; Type_ := "" |};
          {| kind := funcDecl; Name := "Area"; Type_ := "" |}] /\
  (forall syntax ds d, generate Fprint syntax = Some ds -> In d ds ->
     kind d = funcDecl -> TopFunc syntax (Name d)).
Proof.
  split.
  - vm_compute. rewrite Hp. reflexivity.
  - intros syntax ds d H Hin Hk. apply generate_TopOK in H.
    exact (proj1 (List.Forall_forall _ _) H d Hin Hk).
Qed.

(** C5 (code): the walk descends into the bodies of methods and of
    unexported functions, since [inspect] answers [true] there; a
    [const X] in a method body and a [type T] in the body of [helper]
    both become descriptors, and the generated code then refers to a
    package-level [X] and [T] that do not exist. *)
Theorem scan_enters_method_bodies (Fprint : Expr -> option string) (s : string)
  (Hp : Fprint (BasicLit "1") = Some s) :
  generate Fprint [nested_go] =
    Some [{| kind := constDecl; Name := "X"; Type_ := s |};
          {| kind := typeDecl; Name := "T"; Type_ := "" |}].
Proof. vm_compute. rewrite Hp. reflexivity. Qed.

Lemma scan_classification_witness :
  generate print_simple [shape_go] =
    Some [{| kind := constDecl; Name := "Pi"; Type_ := "3" |};
          {| kind := typeDecl; Name := "Shape"; Type_ := "" |};
          {| kind := funcDecl; Name := "Area"; Type_ := "" |}] /\
  (forall syntax ds d, generate print_simple syntax = Some ds -> In d ds ->
     kind d = funcDecl -> TopFunc syntax (Name d)).
Proof. apply (scan_classification print_simple "3"). reflexivity. Defined.

Lemma scan_enters_method_bodies_witness :
  generate print_simple [nested_go] =
    Some [{| kind := constDecl; Name := "X"; Type_ := "1" |};
          {| kind := typeDecl; Name := "T"; Type_ := "" |}].
Proof. apply (scan_enters_method_bodies print_simple "1"). reflexivity. Defined.
End ScannerFacts.

(** ** Errors, symbol implementations and variables *)

Module SymbolFacts.

Lemma string_app_assoc (a b c : string) : ((a ++ b) ++ c)%string = (a ++ b ++ c)%string.
Proof.
  induction a as [|x a IH]; [reflexivity|].
  change (String x ((a ++ b) ++ c)%string = String x (a ++ b ++ c)%string).
  rewrite IH. reflexivity.
Qed.

Lemma app_not_found_nonempty (a : string) : (a ++ "not found")%string <> ""%string.
Proof. destruct a; discriminate. Qed.

(** C8: the message of a [NotFound] names the package when [Pkg] is set,
    the symbol when [Sym] is set, both when both are, and is never
    empty. *)
Theorem NotFound_Error_context (Quote : string -> string) (p s : string) :
  (p <> ""%string ->
     NotFound_Error Quote {| Pkg := p; Sym := "" |} =
       ("package " ++ Quote p ++ ": not found")%string) /\
  (s <> ""%string ->
     NotFound_Error Quote {| Pkg := ""; Sym := s |} =
       ("symbol " ++ Quote s ++ ": not found")%string) /\
  (p <> ""%string -> s <> ""%string ->
     NotFound_Error Quote {| Pkg := p; Sym := s |} =
       ("package " ++ Quote p ++ ": symbol " ++ Quote s ++ ": not found")%string) /\
  (forall nf, NotFound_Error Quote nf <> ""%string).
Proof.
  unfold NotFound_Error. simpl.
  split; [|split; [|split]].
  - intros Hp. destruct p as [|c p]; [contradiction|]. simpl.
    rewrite !string_app_assoc. reflexivity.
  - intros Hs. destruct s as [|c s]; [contradiction|]. simpl.
    rewrite !string_app_assoc. reflexivity.
  - intros Hp Hs. destruct p as [|c p]; [contradiction|].
    destruct s as [|c' s]; [contradiction|]. simpl.
    rewrite !string_app_assoc. reflexivity.
  - intros [p' s']. simpl. rewrite <- !string_app_assoc. apply app_not_found_nonempty.
Qed.

(** C7 (code): [Var] has the methods [Get] and [Set] but no [Name], so it
    does not implement [Symbol], while [Const], [Func] and [Type] do. *)
Theorem Var_lacks_Name :
  MethodSets.implements MethodSets.Var_methods MethodSets.Symbol_iface = false /\
  MethodSets.implements MethodSets.Const_methods MethodSets.Symbol_iface = true /\
  MethodSets.implements MethodSets.Func_methods MethodSets.Symbol_iface = true /\
  MethodSets.implements MethodSets.Type_methods MethodSets.Symbol_iface = true.
Proof. vm_compute. repeat split. Qed.

(** C9: a [Const] registered under a fresh name is found by that name
    and its [Get] is the stored value; [Set] of a value assignable to a
    variable, followed by [Get], returns that value, and the variable's
    storage holds it. *)
Theorem const_var_roundtrip :
  (forall (syms : Registry.Symbols (Symbol:=symbol)) name v,
     Registry.Symbols_inv symbol_Name syms ->
     (forall r, Registry.Lookup syms name <> Some (Ok r)) ->
     exists r, Registry.Lookup (Registry.Add symbol_Name syms [SConst (Const.MakeConst name v)]) name
                 = Some (Ok r) /\ symbol_Get r = v) /\
  (forall (h : store) l c val name,
     h !! l = Some c -> assignable val (ctype c) = true ->
     exists h', Var.Set_ {| Var.name := name; Var.addr := VPtr l |} val h = Some h' /\
                Var.Get {| Var.name := name; Var.addr := VPtr l |} h' = Some val /\
                h' !! l = Some {| ctype := ctype c; cval := val |}).
Proof.
  split.
  - intros [[m|] sl] name v Hinv Hfresh; unfold Registry.Add, Registry.Lookup; simpl.
    + destruct (m !! name) as [i|] eqn:E.
      * exfalso. destruct Hinv as [Hmap _]. simpl in Hmap.
        apply Hmap in E as Hs. destruct Hs as (s & Hs & _).
        apply (Hfresh s). unfold Registry.Lookup. simpl. rewrite E, Hs. reflexivity.
      * simpl. rewrite lookup_insert_eq, lookup_app_r, Nat.sub_diag by lia.
        eexists. split; reflexivity.
    + rewrite lookup_empty. simpl. rewrite lookup_insert_eq.
      eexists. split; reflexivity.
  - intros h l c val name Hc Ha. unfold Var.Set_. cbn [Var.addr]. rewrite Hc, Ha.
    eexists. split; [reflexivity|]. unfold Var.Get. cbn [Var.addr].
    unfold store in *. rewrite lookup_insert_eq. split; reflexivity.
Qed.

Lemma NotFound_Error_context_witness :
  NotFound_Error quote_name {| Pkg := "fmt"; Sym := "" |} =
    ("package " ++ quote_name "fmt" ++ ": not found")%string /\
  NotFound_Error quote_name {| Pkg := ""; Sym := "Println" |} =
    ("symbol " ++ quote_name "Println" ++ ": not found")%string /\
  NotFound_Error quote_name {| Pkg := "fmt"; Sym := "Println" |} =
    ("package " ++ quote_name "fmt" ++ ": symbol " ++ quote_name "Println" ++ ": not found")%string.
Proof.
  destruct (NotFound_Error_context quote_name "fmt" "Println") as (H1 & H2 & H3 & _).
  split; [apply H1; discriminate|]. split; [apply H2; discriminate|].
  apply H3; discriminate.
Defined.

Lemma const_var_roundtrip_witness :
  (exists r, Registry.Lookup
               (Registry.Add symbol_Name Registry.zero_Symbols
                  [SConst (Const.MakeConst "Pi" (VInt 3))]) "Pi" = Some (Ok r) /\
             symbol_Get r = VInt 3) /\
  (exists h', Var.Set_ {| Var.name := "Count"; Var.addr := VPtr 0 |} (VInt 7)
                (<[0 := {| ctype := TInt; cval := VInt 0 |}]> ∅) = Some h' /\
              Var.Get {| Var.name := "Count"; Var.addr := VPtr 0 |} h' = Some (VInt 7) /\
              h' !! 0 = Some {| ctype := TInt; cval := VInt 7 |}).
Proof.
  destruct const_var_roundtrip as [Hc Hv]. split.
  - apply Hc.
    + exact (RegistryFacts.empty_tables_inv symbol_Name).
    + intros r. vm_compute. discriminate.
  - apply (Hv _ 0 {| ctype := TInt; cval := VInt 0 |}); reflexivity.
Defined.
End SymbolFacts.

(** ** More of the registry: how [Add] and [Lookup] compose *)

Module RegistryMore.
Import Registry.
Section More.
Context {Symbol : Type} (Name : Symbol -> string).

(** The symbol the tables bind to [n], if any. *)
Definition bound (m : gmap string nat) (sl : list Symbol) (n : string) : option Symbol :=
  match m !! n with Some i => sl !! i | None => None end.

Definition first_named (ss : list Symbol) (n : string) : option Symbol :=
  find (fun s => String.eqb (Name s) n) ss.

Lemma Lookup_bound (m : gmap string nat) (sl : list Symbol) (n : string) :
  tables_inv Name m sl ->
  Lookup {| names := Some m; slice := sl |} n =
    match bound m sl n with
    | Some s => Some (Ok s)
    | None => Some (Err {| Pkg := ""; Sym := n |})
    end.
Proof.
  intros [Hmap _]. unfold Lookup, bound. simpl.
  destruct (m !! n) as [i|] eqn:E; [|reflexivity].
  apply Hmap in E as (s & Hs & _). rewrite Hs. reflexivity.
Qed.

Lemma Lookup_bound_inv (syms : Symbols (Symbol:=Symbol)) (n : string) :
  Symbols_inv Name syms ->
  Lookup syms n =
    match bound (default ∅ (names syms)) (slice syms) n with
    | Some s => Some (Ok s)
    | None => Some (Err {| Pkg := ""; Sym := n |})
    end.
Proof.
  destruct syms as [[m|] sl]; unfold Symbols_inv; simpl; intros Hinv.
  - exact (Lookup_bound m sl n Hinv).
  - unfold bound. rewrite lookup_empty. reflexivity.
Qed.

(** The loop of [Add]: a name keeps its binding, and an unbound name gets
    the first symbol of [ss] that carries it. *)
Lemma fold_bound (ss : list Symbol) :
  forall m sl n, tables_inv Name m sl ->
  bound (fold_left (add_one Name) ss (m, sl)).1 (fold_left (add_one Name) ss (m, sl)).2 n =
    match bound m sl n with
    | Some r => Some r
    | None => first_named ss n
    end.
Proof.
  induction ss as [|s ss IH]; intros m sl n Hinv; cbn [fold_left].
  - cbn [fst snd]. destruct (bound m sl n); reflexivity.
  - pose proof (RegistryFacts.add_one_tables_inv Name m sl s Hinv) as Hinv'.
    destruct (add_one Name (m, sl) s) as [m' sl'] eqn:Hst.
    rewrite (IH m' sl' n Hinv'). rewrite RegistryFacts.add_one_eq in Hst.
    unfold first_named. cbn [find]. fold (first_named ss n).
    destruct Hinv as [Hmap _].
    destruct (m !! Name s) as [j|] eqn:E.
    + injection Hst as <- <-.
      destruct (bound m sl n) as [r|] eqn:B; [reflexivity|].
      destruct (String.eqb_spec (Name s) n) as [Hn|Hn]; [|reflexivity].
      exfalso. subst n. unfold bound in B. rewrite E in B.
      apply Hmap in E as (r & Hr & _). congruence.
    + injection Hst as <- <-. unfold bound.
      destruct (String.eqb_spec (Name s) n) as [Hn|Hn].
      * subst n. rewrite E, lookup_insert_eq, lookup_app_r, Nat.sub_diag by lia.
        reflexivity.
      * rewrite lookup_insert_ne by exact Hn.
        destruct (m !! n) as [i|] eqn:Ei; [|reflexivity].
        apply Hmap in Ei as (r & Hr & _). rewrite Hr.
        rewrite (lookup_app_l_Some _ _ _ _ Hr). reflexivity.
Qed.

Lemma fold_slice_prefix (ss : list Symbol) :
  forall m sl, exists sfx,
    (fold_left (add_one Name) ss (m, sl)).2 = sl ++ sfx /\
    length sfx <= length ss /\ (forall x, In x sfx -> In x ss).
Proof.
  induction ss as [|s ss IH]; intros m sl; cbn [fold_left].
  - exists []. rewrite app_nil_r. split; [reflexivity|]. split; [simpl; lia|]. intros x [].
  - rewrite RegistryFacts.add_one_eq. destruct (m !! Name s).
    + destruct (IH m sl) as (sfx & H1 & H2 & H3). exists sfx.
      split; [exact H1|]. split; [simpl; lia|]. intros x Hx. right. auto.
    + destruct (IH (<[Name s := length sl]> m) (sl ++ [s])) as (sfx & H1 & H2 & H3).
      exists (s :: sfx). rewrite H1, <- app_assoc. split; [reflexivity|].
      split; [simpl; lia|]. intros x [<-|Hx]; [left; reflexivity|right; auto].
Qed.

Lemma reachable_Symbols_inv (syms : Symbols (Symbol:=Symbol)) :
  reachable Name syms -> Symbols_inv Name syms.
Proof.
  induction 1 as [c| |syms ss _ IH].
  - unfold MakeSymbols, Symbols_inv. destruct (c <? 0)%Z; apply RegistryFacts.empty_tables_inv.
  - apply RegistryFacts.empty_tables_inv.
  - apply RegistryFacts.Add_Symbols_inv, IH.
Qed.

Lemma reachable_nil (syms : Symbols (Symbol:=Symbol)) :
  reachable Name syms -> names syms = None -> slice syms = [].
Proof.
  destruct 1 as [c| |syms' ss _]; simpl.
  - unfold MakeSymbols. destruct (c <? 0)%Z; discriminate.
  - reflexivity.
  - unfold Add. destruct (fold_left _ _ _). discriminate.
Qed.
Lemma Lookup_Add_spec (syms : Symbols) (ss : list Symbol) (n : string) :
  Symbols_inv Name syms ->
  Lookup (Add Name syms ss) n =
    match Lookup syms n with
    | Some (Ok r) => Some (Ok r)
    | _ =>
        match find (fun s => String.eqb (Name s) n) ss with
        | Some s => Some (Ok s)
        | None => Some (Err {| Pkg := ""; Sym := n |})
        end
    end.
Proof.
  intros Hinv.
  rewrite (Lookup_bound_inv syms n Hinv).
  rewrite (Lookup_bound_inv _ n (RegistryFacts.Add_Symbols_inv Name syms ss Hinv)).
  unfold Add. destruct syms as [[m|] sl]; simpl.
  - pose proof (fold_bound ss m sl n Hinv) as H.
    destruct (fold_left (add_one Name) ss (m, sl)) as [m' sl']. simpl in *.
    rewrite H. unfold first_named. destruct (bound m sl n); reflexivity.
  - pose proof (fold_bound ss ∅ [] n (RegistryFacts.empty_tables_inv Name)) as H.
    destruct (fold_left (add_one Name) ss (∅, [])) as [m' sl']. simpl in *.
    rewrite H. unfold bound, first_named. rewrite !lookup_empty. reflexivity.
Qed.

(** A symbol found by [Lookup] carries the requested name. *)
Lemma Lookup_Ok_name (syms : Symbols) (n : string) (s : Symbol) :
  Symbols_inv Name syms -> Lookup syms n = Some (Ok s) -> Name s = n /\ In s (slice syms).
Proof.
  intros Hinv. rewrite (Lookup_bound_inv syms n Hinv).
  destruct (bound (default ∅ (names syms)) (slice syms) n) as [s'|] eqn:B; [|discriminate].
  intros [= <-]. destruct Hinv as [Hmap _]. unfold bound in B.
  destruct (default ∅ (names syms) !! n) as [i|] eqn:E; [|discriminate].
  apply Hmap in E as (s'' & Hs & Hn). rewrite B in Hs. injection Hs as <-.
  split; [exact Hn|]. apply list_elem_of_In, list_elem_of_lookup. eauto.
Qed.

(** After [Add ss], every name of [ss] is found. *)
Lemma Lookup_Add_in (syms : Symbols) (ss : list Symbol) (s : Symbol) :
  Symbols_inv Name syms -> In s ss ->
  exists r, Lookup (Add Name syms ss) (Name s) = Some (Ok r) /\ Name r = Name s.
Proof.
  intros Hinv Hin. rewrite (Lookup_Add_spec syms ss (Name s) Hinv).
  destruct (Lookup syms (Name s)) as [[r|e]|] eqn:L.
  - exists r. split; [reflexivity|]. exact (proj1 (Lookup_Ok_name syms _ r Hinv L)).
  - destruct (find (fun s' => String.eqb (Name s') (Name s)) ss) as [r|] eqn:F.
    + exists r. split; [reflexivity|]. apply find_some in F as [_ F].
      apply String.eqb_eq, F.
    + exfalso. pose proof (find_none _ _ F s Hin) as H. simpl in H.
      rewrite String.eqb_refl in H. discriminate.
  - exfalso. exact (RegistryFacts.Lookup_inv_total Name syms (Name s) Hinv L).
Qed.
End More.

(** [Add] of a concatenation is [Add] of the first part followed by [Add]
    of the second: registering symbols in one call or in several calls
    gives the same collection. *)
Theorem Add_app {Symbol : Type} (Name : Symbol -> string) (syms : Symbols) (ss1 ss2 : list Symbol) :
  Add Name syms (ss1 ++ ss2) = Add Name (Add Name syms ss1) ss2.
Proof.
  unfold Add. destruct (names syms) as [m|]; rewrite fold_left_app;
    destruct (fold_left (add_one Name) ss1 _) as [m1 sl1]; reflexivity.
Qed.

(** On a collection satisfying the invariant, [Lookup] after [Add ss]
    answers what [Lookup] answered before when the name was found, and
    otherwise the first symbol of [ss] with that name, or [NotFound]. *)
Theorem Lookup_Add_first_wins {Symbol : Type} (Name : Symbol -> string)
  (syms : Symbols) (ss : list Symbol) (n : string) (Hinv : Symbols_inv Name syms) :
  Lookup (Add Name syms ss) n =
    match Lookup syms n with
    | Some (Ok r) => Some (Ok r)
    | _ =>
        match find (fun s => String.eqb (Name s) n) ss with
        | Some s => Some (Ok s)
        | None => Some (Err {| Pkg := ""; Sym := n |})
        end
    end.
Proof. exact (Lookup_Add_spec Name syms ss n Hinv). Qed.

(** On every collection built by [MakeSymbols] or the zero value and
    [Add], [Lookup] never panics: it returns a symbol of the collection
    carrying the requested name, or [NotFound{Sym: name}]. *)
Theorem Lookup_reachable_answers {Symbol : Type} (Name : Symbol -> string)
  (syms : Symbols) (n : string) (Hr : reachable Name syms) :
  (exists s, Lookup syms n = Some (Ok s) /\ Name s = n /\ In s (slice syms)) \/
  Lookup syms n = Some (Err {| Pkg := ""; Sym := n |}).
Proof.
  pose proof (reachable_Symbols_inv Name syms Hr) as Hinv.
  rewrite (Lookup_bound_inv Name syms n Hinv).
  destruct (bound (default ∅ (names syms)) (slice syms) n) as [s|] eqn:B; [left|right; reflexivity].
  exists s. split; [reflexivity|]. destruct Hinv as [Hmap _]. unfold bound in B.
  destruct (default ∅ (names syms) !! n) as [i|] eqn:E; [|discriminate].
  apply Hmap in E as (s' & Hs' & Hn). rewrite B in Hs'. injection Hs' as <-.
  split; [exact Hn|]. apply list_elem_of_In, list_elem_of_lookup. eauto.
Qed.

(** [Add] never reorders or removes the symbols already in the slice: it
    appends at most [len(ss)] symbols, all taken from [ss]. *)
Theorem Add_slice_prefix {Symbol : Type} (Name : Symbol -> string)
  (syms : Symbols) (ss : list Symbol) (Hr : reachable Name syms) :
  exists sfx, slice (Add Name syms ss) = slice syms ++ sfx /\
              length sfx <= length ss /\ (forall x, In x sfx -> In x ss).
Proof.
  unfold Add. destruct (names syms) as [m|] eqn:E.
  - pose proof (fold_slice_prefix Name ss m (slice syms)) as H.
    destruct (fold_left (add_one Name) ss (m, slice syms)). exact H.
  - rewrite (reachable_nil Name syms Hr E).
    pose proof (fold_slice_prefix Name ss ∅ []) as H.
    destruct (fold_left (add_one Name) ss (∅, [])). exact H.
Qed.
Lemma Lookup_Add_first_wins_witness :
  let pi3 := SConst (Const.MakeConst "Pi" (VInt 3)) in
  let pi4 := SConst (Const.MakeConst "Pi" (VInt 4)) in
  let syms := Add symbol_Name (MakeSymbols 2) [pi3] in
  Symbols_inv symbol_Name syms /\
  Lookup (Add symbol_Name syms [pi4]) "Pi" = Some (Ok pi3).
Proof.
  intros pi3 pi4 syms.
  assert (Hinv : Symbols_inv symbol_Name syms)
    by (apply (reachable_Symbols_inv symbol_Name), reach_add, reach_make).
  split; [exact Hinv|].
  rewrite (Lookup_Add_first_wins symbol_Name syms [pi4] "Pi" Hinv). vm_compute. reflexivity.
Defined.

Lemma Lookup_reachable_answers_witness :
  let syms := Add symbol_Name (MakeSymbols 2) [SConst (Const.MakeConst "Pi" (VInt 3))] in
  reachable symbol_Name syms /\
  ((exists s, Lookup syms "Area" = Some (Ok s) /\ symbol_Name s = "Area" /\ In s (slice syms)) \/
   Lookup syms "Area" = Some (Err {| Pkg := ""; Sym := "Area" |})).
Proof.
  intros syms. assert (Hr : reachable symbol_Name syms) by (apply reach_add, reach_make).
  split; [exact Hr|]. exact (Lookup_reachable_answers symbol_Name syms "Area" Hr).
Defined.

Lemma Add_slice_prefix_witness :
  let pi := SConst (Const.MakeConst "Pi" (VInt 3)) in
  let area := SFunc (Func.MakeFunc "Area" (VFunc "Area")) in
  let syms := Add symbol_Name zero_Symbols [pi] in
  reachable symbol_Name syms /\
  exists sfx, slice (Add symbol_Name syms [area; pi]) = slice syms ++ sfx /\
              length sfx <= length [area; pi] /\ (forall x, In x sfx -> In x [area; pi]).
Proof.
  intros pi area syms. assert (Hr : reachable symbol_Name syms) by (apply reach_add, reach_zero).
  split; [exact Hr|]. exact (Add_slice_prefix symbol_Name syms [area; pi] Hr).
Defined.

End RegistryMore.

(** ** More of the package index: every package is named after its key *)

Module IndexMore.
Import Index.

Lemma Of_binds {Symbol : Type} (name : string) (w : World (Symbol:=Symbol)) :
  pkgs (Of name w).2 !! name = Some (Of name w).1.
Proof.
  unfold Of, Load, alloc_Package, LoadOrStore.
  destruct (pkgs w !! name) as [v|] eqn:E; [exact E|]. simpl. rewrite E.
  apply lookup_insert_eq.
Qed.

Lemma Of_bound {Symbol : Type} (name : string) (w : World (Symbol:=Symbol)) (l : loc) :
  pkgs w !! name = Some l -> Of name w = (l, w).
Proof. intros H. unfold Of, Load. rewrite H. reflexivity. Qed.

Section More.
Context {Symbol : Type} (Name : Symbol -> string).

(** Every name of the index points to a package of that name, and every
    package's symbols satisfy the invariant of [Symbols]. *)
Definition index_inv (w : World (Symbol:=Symbol)) : Prop :=
  (forall n l, pkgs w !! n = Some l -> exists p, heap w !! l = Some p /\ pkg_Name p = n) /\
  (forall l p, heap w !! l = Some p -> Registry.Symbols_inv Name (pkg_Symbols p)).

Lemma empty_index_inv : index_inv empty_World.
Proof.
  split; simpl.
  - intros n l H. rewrite lookup_empty in H. discriminate.
  - intros l p H. rewrite lookup_nil in H. discriminate.
Qed.

Lemma step_index_inv (o : op) (w : World) : index_inv w -> index_inv (step Name o w).
Proof.
  intros [Hn Hs]. destruct o as [name|name|q ss]; simpl.
  - destruct (Load name w) as [v|] eqn:E; [unfold Of; rewrite E; split; assumption|].
    rewrite (IndexFacts.Of_fresh name w E). split; simpl.
    + intros n l H. destruct (decide (n = name)) as [->|Hne].
      * rewrite lookup_insert_eq in H. injection H as <-.
        exists {| pkg_Name := name; pkg_Symbols := Registry.zero_Symbols |}.
        rewrite lookup_app_r, Nat.sub_diag by lia. split; reflexivity.
      * rewrite lookup_insert_ne in H by congruence.
        destruct (Hn n l H) as (p & Hp & Hnm). exists p. split; [|exact Hnm].
        apply lookup_app_l_Some, Hp.
    + intros l p H. apply lookup_app_Some in H as [H|[_ H]]; [exact (Hs l p H)|].
      apply list_lookup_singleton_Some in H as [_ <-]. apply RegistryFacts.empty_tables_inv.
  - split; assumption.
  - unfold AddTo. destruct (heap w !! q) as [pq|] eqn:Eq; [|split; assumption].
    split; simpl.
    + intros n l H. destruct (Hn n l H) as (p & Hp & Hnm).
      destruct (decide (l = q)) as [->|Hne].
      * rewrite Eq in Hp. injection Hp as <-.
        eexists. rewrite list_lookup_insert_eq by (apply lookup_lt_is_Some; eauto).
        split; [reflexivity|exact Hnm].
      * exists p. rewrite list_lookup_insert_ne by congruence. split; assumption.
    + intros l p H. destruct (decide (l = q)) as [->|Hne].
      * rewrite list_lookup_insert_eq in H by (apply lookup_lt_is_Some; eauto).
        injection H as <-. simpl. apply RegistryFacts.Add_Symbols_inv, (Hs q pq Eq).
      * rewrite list_lookup_insert_ne in H by congruence. exact (Hs l p H).
Qed.

Lemma run_index_inv (os : list op) :
  forall (w : World), index_inv w -> index_inv (run Name os w).
Proof.
  induction os as [|o os IH]; intros w H; simpl; [exact H|].
  apply IH, step_index_inv, H.
Qed.

Lemma Of_step (name : string) (w : World (Symbol:=Symbol)) : (Of name w).2 = step Name (OpOf name) w.
Proof. reflexivity. Qed.

(** A symbol found in the package at [l] stays found there. *)
Lemma step_keeps_found (o : op) (w : World) (l : loc) (p : Package) (n : string) (r : Symbol) :
  index_inv w -> heap w !! l = Some p -> Registry.Lookup (pkg_Symbols p) n = Some (Ok r) ->
  exists p', heap (step Name o w) !! l = Some p' /\
             Registry.Lookup (pkg_Symbols p') n = Some (Ok r).
Proof.
  intros [_ Hs] Hp Hl. destruct o as [name|name|q ss]; simpl.
  - destruct (Load name w) as [v|] eqn:E; [unfold Of; rewrite E; eauto|].
    rewrite (IndexFacts.Of_fresh name w E). simpl. exists p. split; [|exact Hl].
    apply lookup_app_l_Some, Hp.
  - eauto.
  - unfold AddTo. destruct (heap w !! q) as [pq|] eqn:Eq; [|eauto]. simpl.
    destruct (decide (l = q)) as [->|Hne].
    + rewrite Eq in Hp. injection Hp as <-. eexists.
      rewrite list_lookup_insert_eq by (apply lookup_lt_is_Some; eauto). split; [reflexivity|].
      simpl. rewrite (RegistryMore.Lookup_Add_spec Name _ ss n (Hs q pq Eq)), Hl. reflexivity.
    + exists p. rewrite list_lookup_insert_ne by congruence. split; assumption.
Qed.

Lemma run_keeps_found (os : list op) :
  forall (w : World) l p n r, index_inv w -> heap w !! l = Some p ->
  Registry.Lookup (pkg_Symbols p) n = Some (Ok r) ->
  exists p', heap (run Name os w) !! l = Some p' /\
             Registry.Lookup (pkg_Symbols p') n = Some (Ok r).
Proof.
  induction os as [|o os IH]; intros w l p n r Hi Hp Hl; simpl; [eauto|].
  destruct (step_keeps_found o w l p n r Hi Hp Hl) as (p' & Hp' & Hl').
  exact (IH _ l p' n r (step_index_inv o w Hi) Hp' Hl').
Qed.
End More.

(** After [Of(name)] has run, [Lookup(name)] finds the same package. *)
Theorem Lookup_after_Of {Symbol : Type} (w : World (Symbol:=Symbol)) (name : string) :
  Lookup name (Of name w).2 = Ok (Of name w).1.
Proof. unfold Lookup, Load. rewrite Of_binds. reflexivity. Qed.

(** In every state reached from program start, [Of(name)] returns a
    package whose [Name] field is [name] and whose symbols satisfy the
    invariant of [Symbols]. *)
Theorem Of_package_name {Symbol : Type} (Name : Symbol -> string) (os : list op) (name : string) :
  let w := run Name os empty_World in
  exists p, heap (Of name w).2 !! (Of name w).1 = Some p /\ pkg_Name p = name /\
            Registry.Symbols_inv Name (pkg_Symbols p).
Proof.
  intros w.
  assert (Hi : index_inv Name (Of name w).2).
  { rewrite (Of_step Name). apply step_index_inv, run_index_inv, empty_index_inv. }
  destruct Hi as [Hn Hs]. destruct (Hn name _ (Of_binds name w)) as (p & Hp & Hnm).
  exists p. split; [exact Hp|]. split; [exact Hnm|]. exact (Hs _ p Hp).
Qed.

(** [Of] with two different names returns two different packages. *)
Theorem Of_distinct {Symbol : Type} (Name : Symbol -> string) (os : list op)
  (n1 n2 : string) (Hne : n1 <> n2) :
  let w := run Name os empty_World in
  (Of n1 w).1 <> (Of n2 (Of n1 w).2).1.
Proof.
  intros w Heq.
  set (w1 := (Of n1 w).2). set (w2 := (Of n2 w1).2).
  assert (Hi : index_inv Name w2).
  { unfold w2, w1. rewrite !(Of_step Name). apply step_index_inv, step_index_inv,
      run_index_inv, empty_index_inv. }
  assert (H1 : pkgs w2 !! n1 = Some (Of n1 w).1).
  { unfold w2. rewrite (Of_step Name). apply IndexFacts.step_pkgs_mono, Of_binds. }
  assert (H2 : pkgs w2 !! n2 = Some (Of n2 w1).1) by apply Of_binds.
  destruct Hi as [Hn _].
  destruct (Hn n1 _ H1) as (p1 & Hp1 & Hn1). destruct (Hn n2 _ H2) as (p2 & Hp2 & Hn2).
  assert (p1 = p2) by (rewrite Heq in Hp1; unfold w1 in Hp2; congruence).
  subst p2. congruence.
Qed.

(** In every state reached from program start, after [Of(name).Add(ss...)]
    each name of [ss] is found by [Lookup] on [Of(name)], bound to a
    symbol of that name, and stays bound to it whatever operations follow. *)
Theorem registered_symbols_stay_found {Symbol : Type} (Name : Symbol -> string)
  (os : list op) (name : string) (ss : list Symbol) (s : Symbol) (Hin : In s ss) :
  let w := run Name os empty_World in
  let w2 := AddTo Name (Of name w).1 ss (Of name w).2 in
  exists r, Name r = Name s /\
    forall os', let w3 := run Name os' w2 in
      exists p, heap w3 !! (Of name w3).1 = Some p /\
                Registry.Lookup (pkg_Symbols p) (Name s) = Some (Ok r).
Proof.
  intros w w2.
  set (w1 := (Of name w).2). set (l := (Of name w).1).
  assert (Hi1 : index_inv Name w1).
  { unfold w1. rewrite (Of_step Name). apply step_index_inv, run_index_inv, empty_index_inv. }
  assert (Hb : pkgs w1 !! name = Some l) by apply Of_binds.
  destruct Hi1 as [Hn Hs] eqn:Hi1e.
  destruct (Hn name l Hb) as (p & Hp & _).
  destruct (RegistryMore.Lookup_Add_in Name (pkg_Symbols p) ss s (Hs l p Hp) Hin)
    as (r & Hr & Hnr).
  exists r. split; [exact Hnr|]. intros os' w3.
  assert (Hp2 : heap w2 !! l = Some {| pkg_Name := pkg_Name p;
                                       pkg_Symbols := Registry.Add Name (pkg_Symbols p) ss |}).
  { unfold w2. fold w1 l. unfold AddTo. rewrite Hp. simpl.
    apply list_lookup_insert_eq, lookup_lt_is_Some. eauto. }
  assert (Hi2 : index_inv Name w2).
  { unfold w2. fold w1 l. exact (step_index_inv Name (OpAdd l ss) w1 Hi1). }
  assert (Hb2 : pkgs w2 !! name = Some l).
  { unfold w2. fold w1 l. unfold AddTo. destruct (heap w1 !! l); exact Hb. }
  rewrite (Of_bound name w3 l) by (apply IndexFacts.run_pkgs_mono, Hb2). simpl.
  exact (run_keeps_found Name os' w2 l _ (Name s) r Hi2 Hp2 Hr).
Qed.
Lemma Of_distinct_witness :
  ("fmt" <> "os")%string /\
  let w := run symbol_Name [OpOf "io"] empty_World in
  (Of "fmt" w).1 <> (Of "os" (Of "fmt" w).2).1.
Proof.
  split; [discriminate|]. apply (Of_distinct symbol_Name [OpOf "io"] "fmt" "os"). discriminate.
Defined.

Lemma registered_symbols_stay_found_witness :
  let pi := SConst (Const.MakeConst "Pi" (VInt 3)) in
  In pi [pi] /\
  (let w := run symbol_Name [OpOf "fmt"] empty_World in
   let w2 := AddTo symbol_Name (Of "math" w).1 [pi] (Of "math" w).2 in
   exists r, symbol_Name r = symbol_Name pi /\
     forall os', let w3 := run symbol_Name os' w2 in
       exists p, heap w3 !! (Of "math" w3).1 = Some p /\
                 Registry.Lookup (pkg_Symbols p) (symbol_Name pi) = Some (Ok r)).
Proof.
  intros pi. split; [left; reflexivity|].
  apply (registered_symbols_stay_found symbol_Name [OpOf "fmt"] "math" [pi] pi).
  left; reflexivity.
Defined.

End IndexMore.

(** ** Messages of failed lookups, and [Var.Set] *)

Module LookupErrors.

Lemma Registry_Lookup_Err {Symbol : Type} (syms : Registry.Symbols (Symbol:=Symbol)) n e :
  Registry.Lookup syms n = Some (Err e) -> e = {| Pkg := ""; Sym := n |}.
Proof.
  unfold Registry.Lookup. destruct (Registry.names syms) as [m|]; [|congruence].
  destruct (m !! n) as [i|]; [|congruence].
  destruct (Registry.slice syms !! i); discriminate.
Qed.

(** The error of a failed [Symbols.Lookup] reads [symbol "n": not found]
    and that of a failed package [Lookup] reads [package "n": not found];
    for the empty name both read only [not found]. *)
Theorem lookup_error_messages (Quote : string -> string) {Symbol : Type}
  (syms : Registry.Symbols (Symbol:=Symbol)) (w : Index.World (Symbol:=Symbol))
  (n : string) (e : NotFound) :
  (Registry.Lookup syms n = Some (Err e) ->
     NotFound_Error Quote e =
       if String.eqb n "" then "not found"%string
       else ("symbol " ++ Quote n ++ ": not found")%string) /\
  (Index.Lookup n w = Err e ->
     NotFound_Error Quote e =
       if String.eqb n "" then "not found"%string
       else ("package " ++ Quote n ++ ": not found")%string).
Proof.
  split.
  - intros H. apply Registry_Lookup_Err in H. subst e.
    unfold NotFound_Error. simpl. destruct n as [|c n]; [reflexivity|]. simpl.
    rewrite !SymbolFacts.string_app_assoc. reflexivity.
  - unfold Index.Lookup. destruct (Index.Load n w); [discriminate|]. intros [= <-].
    unfold NotFound_Error. simpl. destruct n as [|c n]; [reflexivity|]. simpl.
    rewrite !SymbolFacts.string_app_assoc. reflexivity.
Qed.
Lemma lookup_error_messages_witness :
  let syms := Registry.Add symbol_Name Registry.zero_Symbols [SConst (Const.MakeConst "Pi" (VInt 3))] in
  Registry.Lookup syms "E" = Some (Err {| Pkg := ""; Sym := "E" |}) /\
  NotFound_Error quote_name {| Pkg := ""; Sym := "E" |} =
    ("symbol " ++ quote_name "E" ++ ": not found")%string /\
  Index.Lookup "fmt" (Index.empty_World (Symbol:=symbol)) = Err {| Pkg := "fmt"; Sym := "" |} /\
  NotFound_Error quote_name {| Pkg := "fmt"; Sym := "" |} =
    ("package " ++ quote_name "fmt" ++ ": not found")%string.
Proof.
  intros syms.
  assert (H1 : Registry.Lookup syms "E" = Some (Err {| Pkg := ""; Sym := "E" |}))
    by (vm_compute; reflexivity).
  assert (H2 : Index.Lookup "fmt" (Index.empty_World (Symbol:=symbol)) =
               Err {| Pkg := "fmt"; Sym := "" |}) by (vm_compute; reflexivity).
  split; [exact H1|]. split.
  - exact (proj1 (lookup_error_messages quote_name syms Index.empty_World "E" _) H1).
  - split; [exact H2|].
    exact (proj2 (lookup_error_messages quote_name syms Index.empty_World "fmt" _) H2).
Defined.

End LookupErrors.

Module VarMore.

(** [Set(nil)] always panics, and a [Set] that returns changes only the
    variable it points to, never the static type of any variable. *)
Theorem Var_Set_frame :
  (forall v h, Var.Set_ v VNil h = None) /\
  (forall v val h h', Var.Set_ v val h = Some h' ->
     forall l, option_map ctype (h' !! l) = option_map ctype (h !! l) /\
               (Var.addr v <> VPtr l -> h' !! l = h !! l)).
Proof.
  split.
  - intros v h. unfold Var.Set_. destruct (Var.addr v); try reflexivity.
    destruct (h !! l); reflexivity.
  - intros v val h h'. unfold Var.Set_.
    destruct (Var.addr v) as [| | |l0| |]; try discriminate.
    destruct (h !! l0) as [c|] eqn:Ec; [|discriminate].
    destruct (assignable val (ctype c)); [|discriminate]. intros [= <-] l.
    unfold store in *. destruct (decide (l0 = l)) as [->|Hne].
    + rewrite lookup_insert_eq, Ec. split; [reflexivity|]. intros H; contradiction.
    + rewrite lookup_insert_ne by exact Hne. split; reflexivity.
Qed.
Lemma Var_Set_frame_witness :
  let h : store := <[0 := {| ctype := TInt; cval := VInt 0 |}]>
                     (<[1 := {| ctype := TString; cval := VString "a" |}]> ∅) in
  let v := {| Var.name := "X"; Var.addr := VPtr 0 |} in
  let h' : store := <[0 := {| ctype := TInt; cval := VInt 7 |}]> h in
  Var.Set_ v (VInt 7) h = Some h' /\ h' !! 1 = h !! 1 /\
  option_map ctype (h' !! 0) = option_map ctype (h !! 0) /\ Var.Set_ v VNil h = None.
Proof.
  intros h v h'. destruct Var_Set_frame as [Hnil Hf].
  assert (E : Var.Set_ v (VInt 7) h = Some h') by (vm_compute; reflexivity).
  split; [exact E|]. split; [apply (proj2 (Hf v (VInt 7) h h' E 1)); discriminate|].
  split; [exact (proj1 (Hf v (VInt 7) h h' E 0))|exact (Hnil v h)].
Defined.

End VarMore.

(** ** More of the scanner *)

Module ScannerMore.
Import Scanner.

Section Walk.
Variable Fprint : Expr -> option string.

(** *** Every descriptor comes from [inspect] *)

Section Inspected.
Variable P : decl -> Prop.
Hypothesis HI : forall n ds b, inspect Fprint n = Some (ds, b) -> Forall P ds.

Ltac start_walk :=
  intros acc acc' H; cbn [walk_expr walk_field walk_stmt walk_spec] in H; revert H;
  apply ScannerFacts.visit_grows; [apply HI|intros a a' H].
Ltac done_walk :=
  match goal with Hs : Some _ = Some _ |- _ => injection Hs as <-; apply ScannerFacts.grows_refl end.

Lemma walk_inspected :
  (forall e acc acc', walk_expr Fprint e acc = Some acc' -> ScannerFacts.grows P acc acc') /\
  (forall f acc acc', walk_field Fprint f acc = Some acc' -> ScannerFacts.grows P acc acc') /\
  (forall s acc acc', walk_stmt Fprint s acc = Some acc' -> ScannerFacts.grows P acc acc') /\
  (forall s acc acc', walk_spec Fprint s acc = Some acc' -> ScannerFacts.grows P acc acc').
Proof.
  set (PE := fun e => forall acc acc', walk_expr Fprint e acc = Some acc' -> ScannerFacts.grows P acc acc').
  set (PF := fun f => forall acc acc', walk_field Fprint f acc = Some acc' -> ScannerFacts.grows P acc acc').
  set (PS := fun s => forall acc acc', walk_stmt Fprint s acc = Some acc' -> ScannerFacts.grows P acc acc').
  set (PP := fun s => forall acc acc', walk_spec Fprint s acc = Some acc' -> ScannerFacts.grows P acc acc').
  assert (h1 : forall n, PE (Ident n)) by (intros n; start_walk; done_walk).
  assert (h2 : forall v, PE (BasicLit v)) by (intros v; start_walk; done_walk).
  assert (h3 : forall x, PE x -> PE (StarExpr x)) by (intros x IH; start_walk; exact (IH _ _ H)).
  assert (h4 : forall x sel, PE x -> PE (SelectorExpr x sel))
    by (intros x sel IH; start_walk; exact (IH _ _ H)).
  assert (h5 : forall fn args, PE fn -> Forall PE args -> PE (CallExpr fn args)).
  { intros fn args IH IHs; start_walk. revert H. apply ScannerFacts.bind_grows; [apply IH|].
    apply ScannerFacts.walk_list_grows, IHs. }
  assert (h6 : forall ty body, PE ty -> PS body -> PE (FuncLit ty body)).
  { intros ty body IH IHb; start_walk. revert H. apply ScannerFacts.bind_grows; [apply IH|apply IHb]. }
  assert (h7 : forall ps rs, Forall PF ps -> Forall PF rs -> PE (FuncType ps rs)).
  { intros ps rs IHp IHr; start_walk. revert H.
    apply ScannerFacts.bind_grows; apply ScannerFacts.walk_list_grows; assumption. }
  assert (h8 : forall ms, Forall PF ms -> PE (InterfaceType ms)).
  { intros ms IHs; start_walk. revert H. apply ScannerFacts.walk_list_grows, IHs. }
  assert (h9 : forall fs, Forall PF fs -> PE (StructType fs)).
  { intros fs IHs; start_walk. revert H. apply ScannerFacts.walk_list_grows, IHs. }
  assert (h10 : forall ns ty, PE ty -> PF (MkField ns ty))
    by (intros ns ty IH; start_walk; exact (IH _ _ H)).
  assert (h11 : forall tok specs, Forall PP specs -> PS (DeclStmt tok specs)).
  { intros tok specs IHs; start_walk. revert H. apply ScannerFacts.visit_grows; [apply HI|].
    apply ScannerFacts.walk_list_grows, IHs. }
  assert (h12 : forall x, PE x -> PS (ExprStmt x)) by (intros x IH; start_walk; exact (IH _ _ H)).
  assert (h13 : forall lhs rhs, Forall PE lhs -> Forall PE rhs -> PS (AssignStmt lhs rhs)).
  { intros lhs rhs IHl IHr; start_walk. revert H.
    apply ScannerFacts.bind_grows; apply ScannerFacts.walk_list_grows; assumption. }
  assert (h14 : forall rs, Forall PE rs -> PS (ReturnStmt rs)).
  { intros rs IHs; start_walk. revert H. apply ScannerFacts.walk_list_grows, IHs. }
  assert (h15 : forall l, Forall PS l -> PS (BlockStmt l)).
  { intros l IHs; start_walk. revert H. apply ScannerFacts.walk_list_grows, IHs. }
  assert (h16 : forall path, PP (ImportSpec path)) by (intros path; start_walk; done_walk).
  assert (h17 : forall n ty, PE ty -> PP (TypeSpec n ty))
    by (intros n ty IH; start_walk; exact (IH _ _ H)).
  assert (h18 : forall ns ty vs, (forall t, ty = Some t -> PE t) -> Forall PE vs ->
                PP (ValueSpec ns ty vs)).
  { intros ns ty vs IHt IHs; start_walk. revert H. apply ScannerFacts.bind_grows.
    - destruct ty as [t|]; intros a1 H1.
      + exact (IHt t eq_refl _ _ H1).
      + injection H1 as <-. apply ScannerFacts.grows_refl.
    - apply ScannerFacts.walk_list_grows, IHs. }
  split; [exact (ScannerFacts.Expr_ind' PE PF PS PP h1 h2 h3 h4 h5 h6 h7 h8 h9 h10 h11 h12
                   h13 h14 h15 h16 h17 h18)|].
  split; [exact (ScannerFacts.Field_ind' PE PF PS PP h1 h2 h3 h4 h5 h6 h7 h8 h9 h10 h11 h12
                   h13 h14 h15 h16 h17 h18)|].
  split; [exact (ScannerFacts.Stmt_ind' PE PF PS PP h1 h2 h3 h4 h5 h6 h7 h8 h9 h10 h11 h12
                   h13 h14 h15 h16 h17 h18)|].
  exact (ScannerFacts.Spec_ind' PE PF PS PP h1 h2 h3 h4 h5 h6 h7 h8 h9 h10 h11 h12
           h13 h14 h15 h16 h17 h18).
Qed.

Lemma generate_inspected (syntax : list File) (ds : list decl) :
  generate Fprint syntax = Some ds -> Forall P ds.
Proof.
  destruct walk_inspected as (HE & HF & HS & HP).
  intros H. unfold generate in H.
  assert (G : ScannerFacts.grows P [] ds).
  { revert H. apply ScannerFacts.walk_list_grows. apply List.Forall_forall. intros f _ acc acc'.
    unfold walk_file. apply ScannerFacts.visit_grows; [apply HI|].
    apply ScannerFacts.walk_list_grows. apply List.Forall_forall. intros d _ a a'.
    unfold walk_decl. apply ScannerFacts.visit_grows; [apply HI|]. intros b b'.
    destruct d as [tok specs|recv name ty body].
    - apply ScannerFacts.walk_list_grows, List.Forall_forall. intros x _. apply HP.
    - apply ScannerFacts.bind_grows.
      + destruct recv as [r|]; intros a1 H1; [exact (HF _ _ _ H1)|].
        injection H1 as <-. apply ScannerFacts.grows_refl.
      + intros a1 a2. apply ScannerFacts.bind_grows; [intros a3; apply HE|].
        destruct body as [bd|]; intros a3 a4 H4; [exact (HS _ _ _ H4)|].
        injection H4 as <-. apply ScannerFacts.grows_refl. }
  destruct G as (ds' & -> & F). exact F.
Qed.
End Inspected.

(** The shape of a descriptor: an exported name, a real kind, and no type
    text for types and functions. *)
Definition well_shaped (d : decl) : Prop :=
  IsExported (Name d) = true /\ kind d <> badDecl /\
  (kind d = typeDecl \/ kind d = funcDecl -> Type_ d = ""%string).

Lemma value_names_shaped k names :
  k = constDecl \/ k = varDecl ->
  forall i ty vs ds, value_names Fprint k names i ty vs = Some ds -> Forall well_shaped ds.
Proof.
  intros Hk. induction names as [|id names IH]; intros i ty vs ds H; simpl in H.
  - injection H as <-. constructor.
  - destruct (IsExported id) eqn:Ex.
    + destruct (match ty with Some t => Some t | None => vs !! i end) as [tp|]; [|discriminate].
      destruct (Fprint tp) as [s|]; [|discriminate].
      destruct (value_names Fprint k names (S i) ty vs) as [ds'|] eqn:E; [|discriminate].
      injection H as <-. simpl. constructor; [|eapply IH, E].
      unfold well_shaped. simpl. split; [exact Ex|].
      destruct Hk as [->| ->]; split; try discriminate; intros [H|H]; discriminate.
    + destruct (value_names Fprint k names (S i) ty vs) as [ds'|] eqn:E; [|discriminate].
      injection H as <-. eapply IH, E.
Qed.

Lemma value_specs_shaped k specs :
  k = constDecl \/ k = varDecl ->
  forall ds, value_specs Fprint k specs = Some ds -> Forall well_shaped ds.
Proof.
  intros Hk. induction specs as [|[| |names ty vs] specs IH]; intros ds H; simpl in H;
    try discriminate.
  - injection H as <-. constructor.
  - destruct (value_names Fprint k names 0 ty vs) as [d|] eqn:E1; [|discriminate].
    destruct (value_specs Fprint k specs) as [d'|] eqn:E2; [|discriminate].
    injection H as <-. apply Forall_app.
    split; [eapply value_names_shaped, E1; exact Hk|apply IH; reflexivity].
Qed.

Lemma type_specs_shaped specs :
  forall ds, type_specs specs = Some ds -> Forall well_shaped ds.
Proof.
  induction specs as [|[|name ty|] specs IH]; intros ds H; simpl in H; try discriminate.
  - injection H as <-. constructor.
  - destruct (type_specs specs) as [d'|] eqn:E; [|discriminate].
    injection H as <-. apply Forall_app. split; [|apply IH; reflexivity].
    destruct (IsExported name) eqn:Ex; [|constructor].
    constructor; [|constructor].
    unfold well_shaped. simpl. split; [exact Ex|]. split; [discriminate|]. reflexivity.
Qed.

Lemma inspect_shaped n ds b : inspect Fprint n = Some (ds, b) -> Forall well_shaped ds.
Proof.
  destruct n as [f|[tok specs|recv name ty body]|s|s|e|f]; simpl; intros H;
    try (injection H as <- _; constructor).
  - destruct tok.
    + injection H as <- _. constructor.
    + destruct (value_specs Fprint constDecl specs) as [d|] eqn:E; [|discriminate].
      injection H as <- _. eapply value_specs_shaped, E. left; reflexivity.
    + destruct (type_specs specs) as [d|] eqn:E; [|discriminate].
      injection H as <- _. eapply type_specs_shaped, E.
    + destruct (value_specs Fprint varDecl specs) as [d|] eqn:E; [|discriminate].
      injection H as <- _. eapply value_specs_shaped, E. right; reflexivity.
  - destruct recv as [r|]; [injection H as <- _; constructor|].
    destruct (IsExported name) eqn:Ex; injection H as <- _; [|constructor].
    constructor; [|constructor]. unfold well_shaped. simpl.
    split; [exact Ex|]. split; [discriminate|]. reflexivity.
Qed.

(** *** The walk does not depend on what was collected before *)

Definition shifts (w : list decl -> option (list decl)) : Prop :=
  forall acc, w acc = option_map (fun r => acc ++ r) (w []).

Lemma shifts_ret : shifts (fun acc => Some acc).
Proof. intros acc. simpl. rewrite app_nil_r. reflexivity. Qed.

Lemma shifts_bind (m k : list decl -> option (list decl)) :
  shifts m -> shifts k ->
  shifts (fun acc => match m acc with Some a => k a | None => None end).
Proof.
  intros Hm Hk acc. rewrite (Hm acc).
  destruct (m []) as [a|]; simpl; [|reflexivity].
  rewrite (Hk (acc ++ a)), (Hk a). destruct (k []); simpl; [|reflexivity].
  rewrite app_assoc. reflexivity.
Qed.

Lemma shifts_visit (n : Node) (k : list decl -> option (list decl)) :
  shifts k -> shifts (fun acc => visit Fprint n acc k).
Proof.
  intros Hk acc. unfold visit. destruct (inspect Fprint n) as [[ds []]|]; simpl.
  - rewrite (Hk (acc ++ ds)), (Hk ds). destruct (k []); simpl; [|reflexivity].
    rewrite app_assoc. reflexivity.
  - reflexivity.
  - reflexivity.
Qed.

Lemma shifts_walk_list {A : Type} (w : A -> list decl -> option (list decl)) (l : list A) :
  Forall (fun x => shifts (w x)) l -> shifts (walk_list w l).
Proof.
  induction 1 as [|x l Hx _ IH]; [exact shifts_ret|].
  exact (shifts_bind (w x) (walk_list w l) Hx IH).
Qed.

Ltac shift_node := intros acc; cbn [walk_expr walk_field walk_stmt walk_spec]; revert acc;
  apply shifts_visit.

Lemma walk_shifts :
  (forall e, shifts (walk_expr Fprint e)) /\ (forall f, shifts (walk_field Fprint f)) /\
  (forall s, shifts (walk_stmt Fprint s)) /\ (forall s, shifts (walk_spec Fprint s)).
Proof.
  set (PE := fun e => shifts (walk_expr Fprint e)).
  set (PF := fun f => shifts (walk_field Fprint f)).
  set (PS := fun s => shifts (walk_stmt Fprint s)).
  set (PP := fun s => shifts (walk_spec Fprint s)).
  assert (h1 : forall n, PE (Ident n)) by (intros n; shift_node; exact shifts_ret).
  assert (h2 : forall v, PE (BasicLit v)) by (intros v; shift_node; exact shifts_ret).
  assert (h3 : forall x, PE x -> PE (StarExpr x)) by (intros x IH; shift_node; exact IH).
  assert (h4 : forall x sel, PE x -> PE (SelectorExpr x sel))
    by (intros x sel IH; shift_node; exact IH).
  assert (h5 : forall fn args, PE fn -> Forall PE args -> PE (CallExpr fn args)).
  { intros fn args IH IHs; shift_node.
    exact (shifts_bind _ _ IH (shifts_walk_list (walk_expr Fprint) args IHs)). }
  assert (h6 : forall ty body, PE ty -> PS body -> PE (FuncLit ty body)).
  { intros ty body IH IHb; shift_node. exact (shifts_bind _ _ IH IHb). }
  assert (h7 : forall ps rs, Forall PF ps -> Forall PF rs -> PE (FuncType ps rs)).
  { intros ps rs IHp IHr; shift_node.
    exact (shifts_bind _ _ (shifts_walk_list (walk_field Fprint) ps IHp)
             (shifts_walk_list (walk_field Fprint) rs IHr)). }
  assert (h8 : forall ms, Forall PF ms -> PE (InterfaceType ms)).
  { intros ms IHs; shift_node. exact (shifts_walk_list (walk_field Fprint) ms IHs). }
  assert (h9 : forall fs, Forall PF fs -> PE (StructType fs)).
  { intros fs IHs; shift_node. exact (shifts_walk_list (walk_field Fprint) fs IHs). }
  assert (h10 : forall ns ty, PE ty -> PF (MkField ns ty)) by (intros ns ty IH; shift_node; exact IH).
  assert (h11 : forall tok specs, Forall PP specs -> PS (DeclStmt tok specs)).
  { intros tok specs IHs; shift_node.
    exact (shifts_visit _ _ (shifts_walk_list (walk_spec Fprint) specs IHs)). }
  assert (h12 : forall x, PE x -> PS (ExprStmt x)) by (intros x IH; shift_node; exact IH).
  assert (h13 : forall lhs rhs, Forall PE lhs -> Forall PE rhs -> PS (AssignStmt lhs rhs)).
  { intros lhs rhs IHl IHr; shift_node.
    exact (shifts_bind _ _ (shifts_walk_list (walk_expr Fprint) lhs IHl)
             (shifts_walk_list (walk_expr Fprint) rhs IHr)). }
  assert (h14 : forall rs, Forall PE rs -> PS (ReturnStmt rs)).
  { intros rs IHs; shift_node. exact (shifts_walk_list (walk_expr Fprint) rs IHs). }
  assert (h15 : forall l, Forall PS l -> PS (BlockStmt l)).
  { intros l IHs; shift_node. exact (shifts_walk_list (walk_stmt Fprint) l IHs). }
  assert (h16 : forall path, PP (ImportSpec path)) by (intros path; shift_node; exact shifts_ret).
  assert (h17 : forall n ty, PE ty -> PP (TypeSpec n ty)) by (intros n ty IH; shift_node; exact IH).
  assert (h18 : forall ns ty vs, (forall t, ty = Some t -> PE t) -> Forall PE vs ->
                PP (ValueSpec ns ty vs)).
  { intros ns ty vs IHt IHs. destruct ty as [t|]; shift_node.
    - exact (shifts_bind _ _ (IHt t eq_refl) (shifts_walk_list (walk_expr Fprint) vs IHs)).
    - exact (shifts_bind _ _ shifts_ret (shifts_walk_list (walk_expr Fprint) vs IHs)). }
  split; [exact (ScannerFacts.Expr_ind' PE PF PS PP h1 h2 h3 h4 h5 h6 h7 h8 h9 h10 h11 h12
                   h13 h14 h15 h16 h17 h18)|].
  split; [exact (ScannerFacts.Field_ind' PE PF PS PP h1 h2 h3 h4 h5 h6 h7 h8 h9 h10 h11 h12
                   h13 h14 h15 h16 h17 h18)|].
  split; [exact (ScannerFacts.Stmt_ind' PE PF PS PP h1 h2 h3 h4 h5 h6 h7 h8 h9 h10 h11 h12
                   h13 h14 h15 h16 h17 h18)|].
  exact (ScannerFacts.Spec_ind' PE PF PS PP h1 h2 h3 h4 h5 h6 h7 h8 h9 h10 h11 h12
           h13 h14 h15 h16 h17 h18).
Qed.

Lemma walk_file_shifts (f : File) : shifts (walk_file Fprint f).
Proof.
  destruct walk_shifts as (HE & HF & HS & HP).
  intros acc. unfold walk_file. revert acc. apply shifts_visit, shifts_walk_list.
  apply List.Forall_forall. intros d _ acc. unfold walk_decl. revert acc. apply shifts_visit.
  destruct d as [tok specs|recv name ty body].
  - apply shifts_walk_list, List.Forall_forall. intros x _. apply HP.
  - apply shifts_bind.
    + destruct recv as [r|]; [apply HF|exact shifts_ret].
    + apply shifts_bind; [apply HE|]. destruct body as [b|]; [apply HS|exact shifts_ret].
Qed.

Lemma walk_list_app {A : Type} (w : A -> list decl -> option (list decl)) (l1 l2 : list A) :
  forall acc, walk_list w (l1 ++ l2) acc =
    match walk_list w l1 acc with Some a => walk_list w l2 a | None => None end.
Proof.
  induction l1 as [|x l1 IH]; intros acc; simpl; [reflexivity|].
  destruct (w x acc); [apply IH|reflexivity].
Qed.

(** *** A value spec with fewer values than names *)

Lemma value_names_short k names :
  forall i0 j id values, nth_error names j = Some id -> IsExported id = true ->
  length values <= i0 + j -> value_names Fprint k names i0 None values = None.
Proof.
  induction names as [|x names IH]; intros i0 j id values Hj Hex Hlen;
    [destruct j; discriminate|].
  simpl. destruct j as [|j].
  - simpl in Hj. injection Hj as ->. rewrite Hex.
    rewrite (lookup_ge_None_2 values i0) by lia. reflexivity.
  - rewrite (IH (S i0) j id values Hj Hex) by lia.
    destruct (if IsExported x then _ else _); reflexivity.
Qed.

Lemma value_specs_none k specs names values :
  In (ValueSpec names None values) specs -> value_names Fprint k names 0 None values = None ->
  value_specs Fprint k specs = None.
Proof.
  induction specs as [|sp specs IH]; intros Hin Hv; [destruct Hin|].
  destruct Hin as [Heq|Hin]; [subst sp|].
  - simpl. rewrite Hv. reflexivity.
  - simpl. destruct sp as [| |ns ty vs]; try reflexivity.
    rewrite (IH Hin Hv). destruct (value_names Fprint k ns 0 ty vs); reflexivity.
Qed.

Lemma walk_list_none {A : Type} (w : A -> list decl -> option (list decl)) (l : list A) (x : A) :
  In x l -> (forall acc, w x acc = None) -> forall acc, walk_list w l acc = None.
Proof.
  induction l as [|y l IH]; intros Hin Hx acc; [destruct Hin|].
  simpl. destruct Hin as [<-|Hin]; [rewrite Hx; reflexivity|].
  destruct (w y acc); [apply IH; assumption|reflexivity].
Qed.
End Walk.

(** Every descriptor of a scan has an exported name and one of the kinds
    [Const], [Type], [Func], [Var] (never [<bad decl>]), and the
    descriptors of types and functions carry no type text. *)
Theorem generate_well_shaped (Fprint : Expr -> option string) (syntax : list File)
  (ds : list decl) (H : generate Fprint syntax = Some ds) :
  Forall (fun d => IsExported (Name d) = true /\ kind d <> badDecl /\
                   (kind d = typeDecl \/ kind d = funcDecl -> Type_ d = ""%string)) ds.
Proof.
  exact (generate_inspected Fprint well_shaped (inspect_shaped Fprint) syntax ds H).
Qed.

(** Scanning the files of a package one after the other gives the
    concatenation of the descriptors of each part, and fails when a part
    fails. *)
Theorem generate_app (Fprint : Expr -> option string) (s1 s2 : list File) :
  generate Fprint (s1 ++ s2) =
    match generate Fprint s1, generate Fprint s2 with
    | Some a, Some b => Some (a ++ b)
    | _, _ => None
    end.
Proof.
  unfold generate. rewrite walk_list_app.
  destruct (walk_list (walk_file Fprint) s1 []) as [a|]; [|reflexivity].
  rewrite (shifts_walk_list (walk_file Fprint) s2
             (proj2 (List.Forall_forall _ _) (fun f _ => walk_file_shifts Fprint f)) a).
  destruct (walk_list (walk_file Fprint) s2 []); reflexivity.
Qed.

(** A top-level [const] or [var] spec without a type and with fewer
    values than names (as in [const ( A = iota; B )] or
    [var A, B = f()]) makes the scan fail as soon as one of the names
    without a value is exported: [vs.Values[i]] is out of range. *)
Theorem generate_fails_missing_value (Fprint : Expr -> option string) (syntax : list File)
  (f : File) (tok : token) (specs : list Spec) (names : list string) (values : list Expr)
  (i : nat) (id : string)
  (Hf : In f syntax) (Hd : In (GenDecl tok specs) (decls f)) (Htok : tok = CONST \/ tok = VAR)
  (Hs : In (ValueSpec names None values) specs) (Hi : nth_error names i = Some id)
  (Hex : IsExported id = true) (Hlen : length values <= i) :
  generate Fprint syntax = None.
Proof.
  assert (Hv : forall k, value_names Fprint k names 0 None values = None)
    by (intros k; exact (value_names_short Fprint k names 0 i id values Hi Hex Hlen)).
  assert (Hins : inspect Fprint (NDecl (GenDecl tok specs)) = None).
  { destruct Htok as [-> | ->]; simpl; rewrite (value_specs_none Fprint _ specs names values Hs (Hv _));
      reflexivity. }
  unfold generate. apply (walk_list_none _ _ f Hf). intros acc.
  unfold walk_file, visit. simpl.
  apply (walk_list_none _ _ _ Hd). intros a. unfold walk_decl, visit. rewrite Hins. reflexivity.
Qed.

(** The [less] function given to [sort.Slice] is a strict weak order:
    irreflexive, asymmetric and transitive, and two descriptors are
    incomparable only when they have the same kind and the same name. *)
Theorem less_strict_weak_order :
  (forall a, less a a = false) /\
  (forall a b, less a b = true -> less b a = false) /\
  (forall a b c, less a b = true -> less b c = true -> less a c = true) /\
  (forall a b, less a b = false -> less b a = false -> key a = key b).
Proof.
  assert (Hiff : forall a b, less a b = false <-> kind_then_name b a)
    by (intros a b; apply OrderFacts.less_false_iff).
  assert (Htot : forall a b, kind_then_name a b \/ kind_then_name b a).
  { intros a b. unfold kind_then_name, String.leb.
    rewrite (String.compare_antisym (Name b) (Name a)).
    destruct (Z.lt_trichotomy (declKind_int (kind a)) (declKind_int (kind b))) as [H|[H|H]];
      [left; left; exact H| |right; left; lia].
    destruct (String.compare (Name a) (Name b)); simpl;
      [left; right; split; [exact H|reflexivity]|left; right; split; [exact H|reflexivity]|].
    right; right; split; [lia|reflexivity]. }
  assert (Hnot : forall a b, less a b = true -> ~ kind_then_name b a).
  { intros a b H K. apply Hiff in K. congruence. }
  split; [|split; [|split]].
  - intros a. apply Hiff. right. split; [reflexivity|].
    unfold String.leb. rewrite OrderFacts.string_compare_refl. reflexivity.
  - intros a b H. apply Hiff. destruct (Htot a b) as [K|K]; [exact K|].
    exfalso. exact (Hnot a b H K).
  - intros a b c Hab Hbc. destruct (less a c) eqn:E; [reflexivity|exfalso].
    apply Hiff in E. destruct (Htot a b) as [K|K]; [|exact (Hnot a b Hab K)].
    exact (Hnot b c Hbc (OrderFacts.kind_then_name_trans c a b E K)).
  - intros a b H1 H2. apply Hiff in H1, H2.
    exact (OrderFacts.kind_then_name_antisym a b H2 H1).
Qed.
Lemma generate_well_shaped_witness :
  let out := [{| kind := constDecl; Name := "Pi"; Type_ := "3" |};
              {| kind := typeDecl; Name := "Shape"; Type_ := "" |};
              {| kind := funcDecl; Name := "Area"; Type_ := "" |}] in
  generate print_simple [shape_go] = Some out /\
  Forall (fun d => IsExported (Name d) = true /\ kind d <> badDecl /\
                   (kind d = typeDecl \/ kind d = funcDecl -> Type_ d = ""%string)) out.
Proof.
  intros out. assert (H : generate print_simple [shape_go] = Some out) by (vm_compute; reflexivity).
  split; [exact H|]. exact (generate_well_shaped print_simple [shape_go] out H).
Defined.

Lemma generate_fails_missing_value_witness :
  In iota_go [shape_go; iota_go] /\ generate print_simple [shape_go; iota_go] = None.
Proof.
  split; [right; left; reflexivity|].
  apply (generate_fails_missing_value print_simple [shape_go; iota_go] iota_go CONST
           [ValueSpec ["A"] None [Ident "iota"]; ValueSpec ["B"] None []] ["B"] [] 0 "B");
    [right; left; reflexivity|left; reflexivity|left; reflexivity|right; left; reflexivity
    |reflexivity|vm_compute; reflexivity|simpl; lia].
Defined.

Lemma less_strict_weak_order_witness :
  let pi := {| kind := constDecl; Name := "Pi"; Type_ := "3" |} in
  let sh := {| kind := typeDecl; Name := "Shape"; Type_ := "" |} in
  let ar := {| kind := funcDecl; Name := "Area"; Type_ := "" |} in
  less pi sh = true /\ less sh ar = true /\ less pi ar = true /\ less sh pi = false /\
  less ar ar = false.
Proof.
  intros pi sh ar. destruct less_strict_weak_order as (Hirr & Has & Htr & _).
  assert (H1 : less pi sh = true) by (vm_compute; reflexivity).
  assert (H2 : less sh ar = true) by (vm_compute; reflexivity).
  split; [exact H1|]. split; [exact H2|]. split; [exact (Htr _ _ _ H1 H2)|].
  split; [exact (Has _ _ H1)|exact (Hirr ar)].
Defined.

End ScannerMore.
